(** * kube-tunnel-proxy: a model of [main] and [PortForward]

    The repository holds two revisions of one Go file: [src/main.go], whose
    tunnel table is a literal, and [src/unnamed/part_000], which reads the
    table from [kube-tunnel-proxy.toml].  Both share [Logger.Write] and the
    body of [PortForward].

    The program is a set of goroutines over a WaitGroup, standard output and
    the process' SIGINT handling.  It is embedded as a state machine: one
    event is one scheduling decision (the main goroutine runs, a session
    goroutine runs, a signal-handler goroutine runs) or one observation of
    the outside world (an interrupt arrives, a forwarding channel ends).
    The client-go, spdy, toml and file-system calls are collaborators: their
    results are the fields of [Env]. *)

From Stdlib Require Import ZArith List Lia Ascii.
From stdpp Require Import base list strings pretty.
Import ListNotations.

Local Open Scope string_scope.
Local Open Scope list_scope.
Local Open Scope Z_scope.

(** ** Data, as the Go structs declare it *)

Record Tunnel := {
  Namespace : string;
  Selector : string;
  PodPort : Z;
  LocalPort : Z
}.

Record Context := {
  Name : string;
  Tunnels : list Tunnel
}.

Record Config := {
  Contexts : list Context
}.

(** An [error] value is carried by the text of its [Error()] method. *)
Definition error := string.

(** [fmt.Printf] and [fmt.Println] append to standard output; every call is
    kept as one entry, in the order of the calls. *)
Definition Stdout := list string.

(** [string(b)] for a byte slice [b]. *)
Definition string_of_bytes (b : list Byte.byte) : string :=
  String.string_of_list_byte b.

(** The verb [%d] on an [int]. *)
Definition fmt_d (n : Z) : string := pretty n.

(** ** The logging sink *)

Module Logger.

Record t := {
  Context : string;
  Tag : string
}.

(** [func (this *Logger) Write(b []byte) (int, error)]: the result pair and
    the new standard output. *)
Definition Write (this : t) (b : list Byte.byte) (out : Stdout)
  : (Z * option error) * Stdout :=
  let out' :=
    out ++ ["[" +:+ Context this +:+ "] Logger: " +:+ Tag this +:+ ", "
                +:+ string_of_bytes b] in
  ((0, None), out').

End Logger.

(** ** Collaborators *)

Inductive Result (A : Type) :=
| Ok (a : A)
| Err (e : error).
Arguments Ok {A} a.
Arguments Err {A} e.

(** An element of [pods.Items]; only its [Name] is read. *)
Record Pod := {
  PodName : string
}.

(** The line feed written as [\n] in the Go format strings. *)
Definition nl : string := String "010"%char EmptyString.

(** What the libraries answer.  [RestConfig] stands for [*rest.Config] and
    [ClientSet] for [*kubernetes.Clientset]; the program only passes them on.
    [ReadFile] and [Decode] return both of Go's results, since [main] uses the
    data whatever the error is. *)
Record Env (RestConfig ClientSet : Type) := {
  ReadFile : string -> list Byte.byte * option error;
  Decode : string -> Config * option error;
  ClientConfig : string -> Result RestConfig;
  NewForConfig : RestConfig -> Result ClientSet;
  ListPods : ClientSet -> string -> string -> Result (list Pod);
  RoundTripperFor : RestConfig -> option error;
  New : RestConfig -> string -> string -> list string -> Logger.t -> option error
}.
Arguments ReadFile {RestConfig ClientSet} _ _.
Arguments Decode {RestConfig ClientSet} _ _.
Arguments ClientConfig {RestConfig ClientSet} _ _.
Arguments NewForConfig {RestConfig ClientSet} _ _.
Arguments ListPods {RestConfig ClientSet} _ _ _ _.
Arguments RoundTripperFor {RestConfig ClientSet} _ _.
Arguments New {RestConfig ClientSet} _ _ _ _ _ _.

(** ** Goroutine state *)

(** What a goroutine did, in program order. *)
Inductive Action :=
| AList (ns sel : string)
| APrintf (line : string)
| AMakeChans
| ANotify
| AGo
| ARoundTripperFor
| ANew (ports : list string) (logger : Logger.t)
| AForwardPorts
| ASignalStop
| AWgDone
| AReceive
| AClose
| APanic (e : error)
| AExit (code : Z).

(** Where [PortForward] stands: before the statement named, or after its
    return, or dead with the process. *)
Inductive Pc :=
| AtList
| AtRoundTripperFor
| AtNew
| AtForwardPorts
| Returned
| Crashed.

(** A channel variable: [nil], made and open, or closed. *)
Inductive Chan :=
| NilChan
| Open
| Closed.

(** The goroutine started by [go func() { <-signals ... }()]. *)
Inductive HandlerState :=
| NotSpawned
| Waiting
| Done.

(** What a scheduling step of one goroutine means for the process: it goes
    on, it returns from [PortForward] (the deferred [wg.Done()] runs), it
    panics, or it calls [os.Exit].  No [recover] exists in the program, so a
    panic in any goroutine ends the process; the deferred calls it runs on
    the way cannot change that and are left out. *)
Inductive Fate :=
| Continue
| Return
| Panic (e : error)
| OsExit (code : Z).

(** One event of a run: the main goroutine is scheduled, the [PortForward]
    goroutine of session [tid] is scheduled, its handler goroutine is
    scheduled, its pending [ForwardPorts] call comes back with [r], or the
    process receives SIGINT. *)
Inductive Event :=
| MainStep
| Step (tid : nat)
| Handler (tid : nat)
| ChannelEnds (tid : nat) (r : option error)
| Interrupt.

(** ** Worlds to run the program in

    A world answers for the libraries.  In these worlds a context's
    [*rest.Config] and [*kubernetes.Clientset] are stood for by the context's
    name; the context [stale] cannot be resolved, [spdy.RoundTripperFor]
    refuses the configuration of the context [plain], and the pods are given
    per selector. *)
Definition world (file : list Byte.byte * option error)
    (decoded : Config * option error)
    (pods : string -> Result (list Pod)) : Env string string :=
  {| ReadFile := fun _ => file;
     Decode := fun _ => decoded;
     ClientConfig := fun name =>
       if String.eqb name "stale"
       then Err "context stale does not exist"
       else Ok name;
     NewForConfig := fun rc => Ok rc;
     ListPods := fun _ _ sel => pods sel;
     RoundTripperFor := fun rc =>
       if String.eqb rc "plain"
       then Some "tls: failed to find any PEM data in certificate input"
       else None;
     New := fun _ _ _ _ _ => None |}.

Definition tunnel_x : Tunnel :=
  {| Namespace := "ns"; Selector := "app=x"; PodPort := 9090;
     LocalPort := 8000 |}.

Definition tunnel_y : Tunnel :=
  {| Namespace := "ns"; Selector := "app=y"; PodPort := 5432;
     LocalPort := 8001 |}.

Definition toml_bytes : list Byte.byte :=
  String.list_byte_of_string "[[context]]".

(** A cluster with two pods for [app=x] and for the dashboard, none for
    [app=y], and no answer for any other selector. *)
Definition cluster (sel : string) : Result (list Pod) :=
  if String.eqb sel "app=x"
  then Ok [ {| PodName := "x-abc123" |}; {| PodName := "x-def456" |} ]
  else if String.eqb sel "app=kubernetes-dashboard"
  then Ok [ {| PodName := "dashboard-7d4"|}; {| PodName := "dashboard-9fz" |} ]
  else if String.eqb sel "app=y"
  then Ok []
  else Err "connection refused".

(** A cluster where every selector matches a pod named after it. *)
Definition cluster_full (sel : string) : Result (list Pod) :=
  Ok [ {| PodName := sel +:+ "-0" |} ].

(** The scenario of the specification: context [c1], one tunnel, no pod. *)
Definition world_no_pods : Env string string :=
  world (toml_bytes, None)
        ({| Contexts := [ {| Name := "c1"; Tunnels := [tunnel_x] |} ] |}, None)
        (fun _ => Ok []).

(** One context with a tunnel that resolves and one whose query fails. *)
Definition world_query_fails : Env string string :=
  world (toml_bytes, None)
        ({| Contexts :=
              [ {| Name := "c1";
                   Tunnels := [tunnel_x;
                               {| Namespace := "ns"; Selector := "app=z";
                                  PodPort := 80; LocalPort := 8002 |}] |} ] |},
         None)
        cluster.

(** Two contexts; the transport cannot be built for the second. *)
Definition world_upgrade_fails : Env string string :=
  world (toml_bytes, None)
        ({| Contexts := [ {| Name := "c1"; Tunnels := [tunnel_x] |};
                          {| Name := "plain"; Tunnels := [tunnel_x] |} ] |},
         None)
        cluster.

(** Two contexts; the first cannot be resolved. *)
Definition world_auth_fails : Env string string :=
  world (toml_bytes, None)
        ({| Contexts := [ {| Name := "stale"; Tunnels := [tunnel_x] |};
                          {| Name := "c1"; Tunnels := [tunnel_x] |} ] |},
         None)
        cluster.

(** The configuration file is missing; the empty document decodes to the
    empty configuration. *)
Definition world_no_file : Env string string :=
  world ([], Some "open kube-tunnel-proxy.toml: no such file or directory")
        ({| Contexts := [] |}, None)
        cluster.

(** One context, two tunnels, a pod for each. *)
Definition world_two_tunnels : Env string string :=
  world (toml_bytes, None)
        ({| Contexts :=
              [ {| Name := "c1"; Tunnels := [tunnel_x; tunnel_y] |} ] |},
         None)
        cluster_full.

(** The world of main.go's literal: two dashboard pods. *)
Definition world_minikube : Env string string :=
  world ([], None) ({| Contexts := [] |}, None) cluster.

(** Schedules: [main] up to the [go] statements of one tunnel, of two tunnels
    of one context, and of one tunnel in each of two contexts; a session from
    its query to the blocked [ForwardPorts]; [main] from the end of its loops
    to its return. *)
Definition starts_one : list Event := [MainStep; MainStep; MainStep].

Definition starts_two : list Event :=
  [MainStep; MainStep; MainStep; MainStep].

Definition starts_two_contexts : list Event :=
  [MainStep; MainStep; MainStep; MainStep; MainStep; MainStep].

Definition forwards (tid : nat) : list Event := [Step tid; Step tid; Step tid].

Definition main_returns : list Event := [MainStep; MainStep; MainStep].

(** The schedule of a shutdown: the interrupt, then for every session its
    handler goroutine and the session itself, then [main]. *)
Definition stops (tids : list nat) : list Event :=
  flat_map (fun tid => [Handler tid; Step tid]) tids.

Definition shutdown (n : nat) : list Event :=
  Interrupt :: stops (seq 0 n) ++ [MainStep].

Section Model.

Context {RestConfig ClientSet : Type}.
Variable env : Env RestConfig ClientSet.

(** One call of [PortForward] with its arguments, its locals and the handler
    goroutine it starts.  [signals] counts the values buffered in the channel
    of capacity 1; [notified] holds between [signal.Notify] and
    [signal.Stop]. *)
Record Session := {
  context : string;
  tunnel : Tunnel;
  cfg : RestConfig;
  clientSet : ClientSet;
  pc : Pc;
  podName : string;
  acts : list Action;
  stopChan : Chan;
  notified : bool;
  signals : nat;
  handler : HandlerState;
  hacts : list Action
}.

(** The state on entry, as [go PortForward(&wg, cfg, clientSet, context,
    tunnel)] creates it. *)
Definition spawn (c : string) (t : Tunnel) (rc : RestConfig) (cs : ClientSet)
  : Session :=
  {| context := c; tunnel := t; cfg := rc; clientSet := cs;
     pc := AtList; podName := ""; acts := [];
     stopChan := NilChan; notified := false; signals := 0%nat;
     handler := NotSpawned; hacts := [] |}.

Definition msg_no_pods (s : Session) : string :=
  "[" +:+ context s +:+ "] No pods found: " +:+ Selector (tunnel s) +:+ "."
      +:+ nl.

Definition msg_forwarding (s : Session) (pod : string) : string :=
  "[" +:+ context s +:+ "] Forwarding localhost:"
      +:+ fmt_d (LocalPort (tunnel s)) +:+ " to pod " +:+ pod +:+ ":"
      +:+ fmt_d (PodPort (tunnel s)) +:+ nl.

Definition msg_stopped (s : Session) : string :=
  "[" +:+ context s +:+ "] Stopped forwarding " +:+ podName s +:+ ":"
      +:+ fmt_d (PodPort (tunnel s)) +:+ "." +:+ nl.

Definition msg_error (e : error) : string := "Error: " +:+ e +:+ nl.

Definition ports_of (s : Session) : list string :=
  [fmt_d (LocalPort (tunnel s)) +:+ ":" +:+ fmt_d (PodPort (tunnel s))].

Definition logger_of (s : Session) : Logger.t :=
  {| Logger.Context := context s;
     Logger.Tag := podName s +:+ ":" +:+ fmt_d (LocalPort (tunnel s)) |}.

(** The PortForward goroutine moves to [q] having done [a]. *)
Definition advance (s : Session) (q : Pc) (a : list Action) : Session :=
  {| context := context s; tunnel := tunnel s; cfg := cfg s;
     clientSet := clientSet s;
     pc := q; podName := podName s; acts := acts s ++ a;
     stopChan := stopChan s; notified := notified s; signals := signals s;
     handler := handler s; hacts := hacts s |}.

(** Lines 101 to 118 of part_000 (90 to 107 of main.go) when a pod was found:
    [podName] is set, the line is printed, both channels are made, SIGINT is
    routed to [signals] and the handler goroutine is started. *)
Definition start_forwarding (s : Session) (pod : string) : Session :=
  {| context := context s; tunnel := tunnel s; cfg := cfg s;
     clientSet := clientSet s;
     pc := AtRoundTripperFor; podName := pod;
     acts := acts s ++ [AList (Namespace (tunnel s)) (Selector (tunnel s));
                        APrintf (msg_forwarding s pod);
                        AMakeChans; ANotify; AGo];
     stopChan := Open; notified := true; signals := signals s;
     handler := Waiting; hacts := hacts s |}.

(** The deferred calls of a normal return: [signal.Stop(signals)] when it was
    registered, then [wg.Done()]. *)
Definition return_from_forward (s : Session) : Session :=
  {| context := context s; tunnel := tunnel s; cfg := cfg s;
     clientSet := clientSet s;
     pc := Returned; podName := podName s;
     acts := acts s ++ [ASignalStop; AWgDone];
     stopChan := stopChan s; notified := false; signals := signals s;
     handler := handler s; hacts := hacts s |}.

(** One scheduling step of the [PortForward] goroutine: the statements up to
    the next library call that can block or fail. *)
Definition PortForward (s : Session) : Session * Stdout * Fate :=
  let ns := Namespace (tunnel s) in
  let sel := Selector (tunnel s) in
  match pc s with
  | AtList =>
      match ListPods env (clientSet s) ns sel with
      | Err e => (advance s Crashed [AList ns sel; APanic e], [], Panic e)
      | Ok items =>
          if Z.of_nat (length items) <? 1 then
            (advance s Returned
               [AList ns sel; APrintf (msg_no_pods s); AWgDone],
             [msg_no_pods s], Return)
          else
            match items !! 0%nat with
            | Some pod =>
                (start_forwarding s (PodName pod),
                 [msg_forwarding s (PodName pod)], Continue)
            | None =>
                let e := "runtime error: index out of range" in
                (advance s Crashed [AList ns sel; APanic e], [], Panic e)
            end
      end
  | AtRoundTripperFor =>
      match RoundTripperFor env (cfg s) with
      | Some e =>
          (advance s Crashed
             [ARoundTripperFor; APrintf (msg_error e); AExit 1],
           [msg_error e], OsExit 1)
      | None => (advance s AtNew [ARoundTripperFor], [], Continue)
      end
  | AtNew =>
      let ports := ports_of s in
      let logger := logger_of s in
      match New env (cfg s) ns (podName s) ports logger with
      | Some e => (advance s Crashed [ANew ports logger; APanic e], [], Panic e)
      | None =>
          (advance s AtForwardPorts [ANew ports logger; AForwardPorts], [],
           Continue)
      end
  | AtForwardPorts =>
      match stopChan s with
      | Closed => (return_from_forward s, [], Return)
      | _ => (s, [], Continue)
      end
  | Returned => (s, [], Continue)
  | Crashed => (s, [], Continue)
  end.

(** [fw.ForwardPorts()] comes back by itself with result [r]: the channel was
    lost ([nil] after the library logged it) or forwarding failed. *)
Definition ForwardPorts_returns (r : option error) (s : Session)
  : Session * Stdout * Fate :=
  match pc s with
  | AtForwardPorts =>
      match r with
      | Some e => (advance s Crashed [APanic e], [], Panic e)
      | None => (return_from_forward s, [], Return)
      end
  | _ => (s, [], Continue)
  end.

(** The handler goroutine moves on having done [a]. *)
Definition handled (s : Session) (c : Chan) (a : list Action) : Session :=
  {| context := context s; tunnel := tunnel s; cfg := cfg s;
     clientSet := clientSet s;
     pc := pc s; podName := podName s; acts := acts s;
     stopChan := c; notified := notified s; signals := Nat.pred (signals s);
     handler := Done; hacts := hacts s ++ a |}.

(** One scheduling step of the handler goroutine: blocked until [signals]
    holds a value, then the body of the [if], then the goroutine ends. *)
Definition handler_step (s : Session) : Session * Stdout * Fate :=
  match handler s, signals s with
  | Waiting, S _ =>
      match stopChan s with
      | NilChan => (handled s NilChan [AReceive], [], Continue)
      | Open =>
          (handled s Closed [AReceive; APrintf (msg_stopped s); AClose],
           [msg_stopped s], Continue)
      | Closed =>
          let e := "close of closed channel" in
          (handled s Closed [AReceive; APrintf (msg_stopped s); APanic e],
           [msg_stopped s], Panic e)
      end
  | _, _ => (s, [], Continue)
  end.

(** The runtime relays one SIGINT to a registered channel: a send that does
    not block, so the value is dropped when the buffer is full. *)
Definition relay (s : Session) : Session :=
  if notified s then
    {| context := context s; tunnel := tunnel s; cfg := cfg s;
       clientSet := clientSet s;
       pc := pc s; podName := podName s; acts := acts s;
       stopChan := stopChan s; notified := notified s;
       signals := match signals s with O => 1%nat | S n => S n end;
       handler := handler s; hacts := hacts s |}
  else s.

(** ** The process *)

(** Where [main] stands.  [MConfig] is the read-and-decode prologue of
    part_000; [MContexts rest] is the head of the outer [for] with [rest] still
    to visit; [MTunnels c rc cs ts rest] is the head of the inner [for] of
    context [c] with [ts] still to start; [MWait] is [wg.Wait()]. *)
Inductive MainPc :=
| MConfig
| MContexts (rest : list Context)
| MTunnels (c : Context) (rc : RestConfig) (cs : ClientSet)
           (ts : list Tunnel) (rest : list Context)
| MWait
| MDone.

(** How the process stands: running, ended by [main] returning or by
    [os.Exit] (with that code), ended by a panic that nothing recovers (the Go
    runtime then exits with status 2), or ended by a SIGINT that no channel is
    registered for (the default disposition). *)
Inductive Status :=
| Running
| Exited (code : Z)
| Panicked (e : error)
| Killed.

Definition exit_code (st : Status) : option Z :=
  match st with
  | Running => None
  | Exited c => Some c
  | Panicked _ => Some 2
  | Killed => None
  end.

Record Proc := {
  mainpc : MainPc;
  sessions : list Session;
  wg : nat;
  stdout : Stdout;
  status : Status
}.

(** The verb [%v] of [fmt.Println(config)] on the three structs. *)
Fixpoint fmt_join (l : list string) : string :=
  match l with
  | [] => ""
  | [x] => x
  | x :: r => x +:+ " " +:+ fmt_join r
  end.

Definition fmt_Tunnel (t : Tunnel) : string :=
  "{" +:+ Namespace t +:+ " " +:+ Selector t +:+ " " +:+ fmt_d (PodPort t)
      +:+ " " +:+ fmt_d (LocalPort t) +:+ "}".

Definition fmt_Context (c : Context) : string :=
  "{" +:+ Name c +:+ " [" +:+ fmt_join (map fmt_Tunnel (Tunnels c)) +:+ "]}".

Definition fmt_Config (c : Config) : string :=
  "{[" +:+ fmt_join (map fmt_Context (Contexts c)) +:+ "]}".

Definition println_error (r : option error) : Stdout :=
  match r with
  | Some e => [e +:+ nl]
  | None => []
  end.

Definition msg_setting_up (c : Context) : string :=
  "[" +:+ Name c +:+ "] Setting up "
      +:+ fmt_d (Z.of_nat (length (Tunnels c))) +:+ " tunnels." +:+ nl.

Definition main_moves (p : Proc) (q : MainPc) (out : Stdout) : Proc :=
  {| mainpc := q; sessions := sessions p; wg := wg p;
     stdout := stdout p ++ out; status := status p |}.

Definition main_panics (p : Proc) (out : Stdout) (e : error) : Proc :=
  {| mainpc := mainpc p; sessions := sessions p; wg := wg p;
     stdout := stdout p ++ out; status := Panicked e |}.

(** One scheduling step of the main goroutine. *)
Definition main_step (p : Proc) : Proc :=
  match mainpc p with
  | MConfig =>
      let '(tomlData, rerr) := ReadFile env "kube-tunnel-proxy.toml" in
      let '(config, derr) := Decode env (string_of_bytes tomlData) in
      main_moves p (MContexts (Contexts config))
        (println_error rerr ++ println_error derr ++ [fmt_Config config +:+ nl])
  | MContexts [] => main_moves p MWait []
  | MContexts (c :: rest) =>
      let out := [msg_setting_up c] in
      match ClientConfig env (Name c) with
      | Err e => main_panics p out e
      | Ok rc =>
          match NewForConfig env rc with
          | Err e => main_panics p out e
          | Ok cs => main_moves p (MTunnels c rc cs (Tunnels c) rest) out
          end
      end
  | MTunnels c rc cs [] rest => main_moves p (MContexts rest) []
  | MTunnels c rc cs (t :: ts) rest =>
      {| mainpc := MTunnels c rc cs ts rest;
         sessions := sessions p ++ [spawn (Name c) t rc cs];
         wg := S (wg p);
         stdout := stdout p; status := status p |}
  | MWait =>
      match wg p with
      | O => {| mainpc := MDone; sessions := sessions p; wg := wg p;
                stdout := stdout p; status := Exited 0 |}
      | S _ => p
      end
  | MDone => p
  end.

(** The result of a goroutine step of session [tid] is written back. *)
Definition commit (tid : nat) (r : Session * Stdout * Fate) (p : Proc) : Proc :=
  let '(s', out, f) := r in
  let ss := <[tid := s']> (sessions p) in
  match f with
  | Continue =>
      {| mainpc := mainpc p; sessions := ss; wg := wg p;
         stdout := stdout p ++ out; status := status p |}
  | Return =>
      match wg p with
      | S n =>
          {| mainpc := mainpc p; sessions := ss; wg := n;
             stdout := stdout p ++ out; status := status p |}
      | O =>
          {| mainpc := mainpc p; sessions := ss; wg := wg p;
             stdout := stdout p ++ out;
             status := Panicked "sync: negative WaitGroup counter" |}
      end
  | Panic e =>
      {| mainpc := mainpc p; sessions := ss; wg := wg p;
         stdout := stdout p ++ out; status := Panicked e |}
  | OsExit c =>
      {| mainpc := mainpc p; sessions := ss; wg := wg p;
         stdout := stdout p ++ out; status := Exited c |}
  end.

(** SIGINT reaches the process. *)
Definition interrupt (p : Proc) : Proc :=
  if existsb notified (sessions p) then
    {| mainpc := mainpc p; sessions := map relay (sessions p); wg := wg p;
       stdout := stdout p; status := status p |}
  else
    {| mainpc := mainpc p; sessions := sessions p; wg := wg p;
       stdout := stdout p; status := Killed |}.

Definition on_session (tid : nat) (f : Session -> Session * Stdout * Fate)
    (p : Proc) : Proc :=
  match sessions p !! tid with
  | Some s => commit tid (f s) p
  | None => p
  end.

(** Nothing runs once the process has ended. *)
Definition step (e : Event) (p : Proc) : Proc :=
  match status p with
  | Running =>
      match e with
      | MainStep => main_step p
      | Step tid => on_session tid PortForward p
      | Handler tid => on_session tid handler_step p
      | ChannelEnds tid r => on_session tid (ForwardPorts_returns r) p
      | Interrupt => interrupt p
      end
  | _ => p
  end.

Fixpoint run (evs : list Event) (p : Proc) : Proc :=
  match evs with
  | [] => p
  | e :: evs' => run evs' (step e p)
  end.

Definition boot (m : MainPc) : Proc :=
  {| mainpc := m; sessions := []; wg := 0%nat; stdout := [];
     status := Running |}.

(** The literal of main.go, a map with the one key [minikube]. *)
Definition config_literal : list Context :=
  [ {| Name := "minikube";
       Tunnels := [ {| Namespace := "kube-system";
                       Selector := "app=kubernetes-dashboard";
                       PodPort := 9090;
                       LocalPort := 8000 |} ] |} ].

(** main.go hands [PortForward] the addresses of its two loop variables; with
    one context and one tunnel each variable is written once, so the session
    reads the values [spawn] stores. *)
Definition main_go : Proc := boot (MContexts config_literal).

Definition main_toml : Proc := boot MConfig.

Inductive initial : Proc -> Prop :=
| initial_main_go : initial main_go
| initial_main_toml : initial main_toml.

(** A session's declaration: its context name and tunnel. *)
Definition declaration (s : Session) : string * Tunnel :=
  (context s, tunnel s).

Definition declared_in (c : Context) (ts : list Tunnel)
  : list (string * Tunnel) :=
  map (fun t => (Name c, t)) ts.

Definition declared_by (cs : list Context) : list (string * Tunnel) :=
  flat_map (fun c => declared_in c (Tunnels c)) cs.

(** The tunnels [main] has yet to start, read off its program point. *)
Definition pending (m : MainPc) : list (string * Tunnel) :=
  match m with
  | MConfig =>
      declared_by
        (Contexts (fst (Decode env (string_of_bytes
                          (fst (ReadFile env "kube-tunnel-proxy.toml"))))))
  | MContexts rest => declared_by rest
  | MTunnels c _ _ ts rest => declared_in c ts ++ declared_by rest
  | MWait => []
  | MDone => []
  end.

Definition live (s : Session) : bool :=
  match pc s with
  | Returned => false
  | _ => true
  end.

Fixpoint count_where {A} (f : A -> bool) (l : list A) : nat :=
  match l with
  | [] => 0%nat
  | x :: r => if f x then S (count_where f r) else count_where f r
  end.



Definition is_done (a : Action) : bool :=
  match a with AWgDone => true | _ => false end.

(** The Channel is dialled inside [fw.ForwardPorts()]. *)
Definition opens_channel (a : Action) : bool :=
  match a with AForwardPorts => true | _ => false end.

(** ** What the proofs maintain *)

(** The three ways a session fails by a panic: the pod query fails, the
    forwarder cannot be built, or [ForwardPorts] returns an error. *)
Inductive failure (tid : nat) (s : Session) : Event -> error -> Prop :=
| failure_list e :
    pc s = AtList ->
    ListPods env (clientSet s) (Namespace (tunnel s)) (Selector (tunnel s))
      = Err e ->
    failure tid s (Step tid) e
| failure_new e :
    pc s = AtNew ->
    New env (cfg s) (Namespace (tunnel s)) (podName s) (ports_of s)
      (logger_of s) = Some e ->
    failure tid s (Step tid) e
| failure_forward e :
    pc s = AtForwardPorts ->
    failure tid s (ChannelEnds tid (Some e)) e.

(** The pods the cluster returns for a session's selector. *)
Definition listed (s : Session) : Result (list Pod) :=
  ListPods env (clientSet s) (Namespace (tunnel s)) (Selector (tunnel s)).


(** Past the query, [podName] is the name of the head of the list returned. *)
Definition picks_first (s : Session) : Prop :=
  pc s = AtList \/
  forall items, listed s = Ok items -> (1 <= length items)%nat ->
    Some (podName s) = PodName <$> head items.

(** What a goroutine step may do to the WaitGroup: only a step that takes a
    live session to [Returned] calls [wg.Done()], and the only exit code of
    [os.Exit] is 1. *)
Definition fate_fits (s : Session) (r : Session * Stdout * Fate) : Prop :=
  match r.2 with
  | Continue => live r.1.1 = live s
  | Return => live s = true /\ live r.1.1 = false
  | Panic _ => True
  | OsExit c => c = 1
  end.

(** The counter of the WaitGroup is the number of sessions that have not
    returned, and [main] is past [wg.Wait()] exactly when the process ended
    with exit code 0. *)
Definition accounted (p : Proc) : Prop :=
  match status p with
  | Running => wg p = count_where live (sessions p) /\ mainpc p <> MDone
  | Exited c =>
      (c = 0 /\ mainpc p = MDone /\ count_where live (sessions p) = 0%nat) \/
      (c = 1 /\ mainpc p <> MDone)
  | Panicked _ => mainpc p <> MDone
  | Killed => mainpc p <> MDone
  end.

Definition is_printf (a : Action) : bool :=
  match a with APrintf _ => true | _ => false end.

(** A session whose selector matches nothing has either not run yet or has
    returned after the query and the one line. *)
Definition no_pods_outcome (s : Session) : Prop :=
  listed s = Ok [] ->
  stopChan s = NilChan /\ handler s = NotSpawned /\
  ((pc s = AtList /\ acts s = []) \/
   (pc s = Returned /\
    acts s = [AList (Namespace (tunnel s)) (Selector (tunnel s));
              APrintf (msg_no_pods s); AWgDone])).

(** The handler goroutine, the stop channel and the return of [PortForward]
    move together: the handler exists from the moment the channel is made,
    the channel is closed by the handler's one run, and [wg.Done()] is in the
    history exactly when the session has returned. *)
Definition stops_once (s : Session) : Prop :=
  (pc s = AtList -> handler s = NotSpawned /\ acts s = []) /\
  ((handler s = NotSpawned /\ stopChan s = NilChan /\ hacts s = []) \/
   (handler s = Waiting /\ stopChan s = Open /\ hacts s = []) \/
   (handler s = Done /\ stopChan s = Closed /\
    hacts s = [AReceive; APrintf (msg_stopped s); AClose])) /\
  count_where is_done (acts s) = (if live s then 0 else 1)%nat.


(** An error that one of the libraries returned and that the program answers
    with [panic(err.Error())]. *)
Definition collaborator_error (e : error) : Prop :=
  (exists name, ClientConfig env name = Err e) \/
  (exists rc, NewForConfig env rc = Err e) \/
  (exists cs ns sel, ListPods env cs ns sel = Err e) \/
  (exists rc ns pod ports logger, New env rc ns pod ports logger = Some e).

(** The connection configuration of a context can be resolved. *)
Definition resolves (c : Context) : Prop :=
  exists rc k, ClientConfig env (Name c) = Ok rc /\ NewForConfig env rc = Ok k.

(** The scheduling steps [main] takes from the head of its outer loop over
    [cs] to [wg.Wait()]: per context the set-up, one [go] per tunnel and the
    end of the inner loop; then the end of the outer loop. *)
Fixpoint main_steps (cs : list Context) : nat :=
  match cs with
  | [] => 1
  | c :: rest => (length (Tunnels c) + 2 + main_steps rest)%nat
  end.

(** A session holds the configuration and the client set that were resolved
    for the name of its own context. *)
Definition configured (s : Session) : Prop :=
  ClientConfig env (context s) = Ok (cfg s) /\
  NewForConfig env (cfg s) = Ok (clientSet s).

Definition main_configured (m : MainPc) : Prop :=
  match m with
  | MTunnels c rc k _ _ =>
      ClientConfig env (Name c) = Ok rc /\ NewForConfig env rc = Ok k
  | _ => True
  end.

(** SIGINT is routed to [signals] from [signal.Notify] to the deferred
    [signal.Stop]: while the session is between its query and its return. *)
Definition listening (s : Session) : Prop :=
  match pc s with
  | AtList => notified s = false
  | AtRoundTripperFor => notified s = true
  | AtNew => notified s = true
  | AtForwardPorts => notified s = true
  | Returned => notified s = false
  | Crashed => True
  end.

(** Nothing can move a session that has returned, is no longer registered for
    SIGINT and has no signal buffered. *)
Definition inert (s s' : Session) : Prop :=
  pc s = Returned -> notified s = false -> signals s = 0%nat -> s' = s.

(** What every reachable process satisfies, as far as a shutdown needs it. *)
Definition sound (p : Proc) : Prop :=
  accounted p /\ Forall stops_once (sessions p) /\
  Forall listening (sessions p).

(** A shutdown under way: [main] waits, and every session has returned or,
    if its turn [k] has not come, is forwarding with the interrupt in the
    buffer of its [signals]. *)
Definition stopping (k : nat) (p : Proc) : Prop :=
  status p = Running /\ mainpc p = MWait /\
  forall tid s, sessions p !! tid = Some s ->
    pc s = Returned \/
    ((k <= tid)%nat /\ pc s = AtForwardPorts /\ stopChan s = Open /\
     (1 <= signals s)%nat).

(** A session between [signal.Notify] and the deferred [signal.Stop]. *)
Definition registered (s : Session) : bool :=
  match pc s with
  | AtRoundTripperFor | AtNew | AtForwardPorts => true
  | _ => false
  end.

(** No goroutine of a running process has panicked or called [os.Exit]. *)
Definition uncrashed (p : Proc) : Prop :=
  status p = Running -> Forall (fun s => pc s <> Crashed) (sessions p).

(** A goroutine step that lets the process run on does not crash. *)
Definition fate_spares (s : Session) (r : Session * Stdout * Fate) : Prop :=
  match r.2 with
  | Continue | Return => pc s <> Crashed -> pc r.1.1 <> Crashed
  | _ => True
  end.


(** Unfolds one goroutine step into its cases. *)
Ltac goroutine_cases :=
  unfold PortForward, ForwardPorts_returns, handler_step, relay,
    start_forwarding, return_from_forward, advance, handled in *;
  repeat case_match; simpl in *; subst; simpl in *.

(** ** How runs are reasoned about *)

Lemma step_ended e p : status p <> Running -> step e p = p.
Proof. unfold step. destruct (status p); congruence. Qed.

Lemma run_ended evs p : status p <> Running -> run evs p = p.
Proof.
  induction evs as [|e evs IH]; simpl; intros H; [done|].
  rewrite step_ended by done. auto.
Qed.

Lemma run_app evs1 evs2 p : run (evs1 ++ evs2) p = run evs2 (run evs1 p).
Proof. revert p. induction evs1 as [|e evs1 IH]; simpl; auto. Qed.

Lemma commit_sessions tid s' out f p :
  sessions (commit tid (s', out, f) p) = <[tid := s']> (sessions p).
Proof. unfold commit. destruct f; [|destruct (wg p)| |]; reflexivity. Qed.

Lemma commit_mainpc tid r p : mainpc (commit tid r p) = mainpc p.
Proof.
  destruct r as [[s' out] f]. unfold commit.
  destruct f; [|destruct (wg p)| |]; reflexivity.
Qed.

Lemma main_step_sessions p :
  sessions (main_step p) = sessions p \/
  exists c t rc cs, sessions (main_step p) = sessions p ++ [spawn c t rc cs].
Proof.
  unfold main_step, main_moves, main_panics.
  repeat case_match; simpl; eauto 10.
Qed.

(** A property of sessions that [spawn] establishes and every goroutine step
    keeps holds of all sessions of every run. *)
Section SessionInvariant.

Variable I : Session -> Prop.
Hypothesis I_spawn : forall c t rc cs, I (spawn c t rc cs).
Hypothesis I_PortForward : forall s, I s -> I (PortForward s).1.1.
Hypothesis I_handler : forall s, I s -> I (handler_step s).1.1.
Hypothesis I_returns : forall r s, I s -> I (ForwardPorts_returns r s).1.1.
Hypothesis I_relay : forall s, I s -> I (relay s).

Lemma on_session_invariant tid f p :
  (forall s, I s -> I (f s).1.1) ->
  Forall I (sessions p) -> Forall I (sessions (on_session tid f p)).
Proof.
  intros Hf HI. unfold on_session.
  destruct (sessions p !! tid) as [s|] eqn:E; [|done].
  destruct (f s) as [[s' out] fate] eqn:Ef.
  rewrite commit_sessions. apply Forall_insert; [done|].
  specialize (Hf s). rewrite Ef in Hf. apply Hf.
  eapply Forall_lookup_1; eauto.
Qed.

Lemma step_invariant e p :
  Forall I (sessions p) -> Forall I (sessions (step e p)).
Proof.
  intros HI. unfold step. destruct (status p); try done.
  destruct e.
  - destruct (main_step_sessions p) as [->|(c & t & rc & cs & ->)]; [done|].
    apply Forall_app; split; [done|]. by apply Forall_singleton.
  - by apply on_session_invariant.
  - by apply on_session_invariant.
  - apply on_session_invariant; [|done]. intros s. apply I_returns.
  - unfold interrupt. destruct (existsb _ _); simpl; [|done].
    apply Forall_fmap. eapply Forall_impl; [exact HI|]. intros s. apply I_relay.
Qed.

Lemma run_invariant evs p :
  Forall I (sessions p) -> Forall I (sessions (run evs p)).
Proof.
  revert p. induction evs as [|e evs IH]; simpl; intros p HI; [done|].
  by apply IH, step_invariant.
Qed.

Lemma reachable_invariant p0 evs tid s :
  initial p0 -> sessions (run evs p0) !! tid = Some s -> I s.
Proof.
  intros H0 E.
  assert (Forall I (sessions (run evs p0))) as HF.
  { apply run_invariant. destruct H0; simpl; constructor. }
  eapply Forall_lookup_1; eauto.
Qed.

End SessionInvariant.

(** A relation between an earlier and a later state of one session that every
    goroutine step respects links the session across any continuation. *)
Section SessionEvolution.

Variable R : Session -> Session -> Prop.
Hypothesis R_refl : forall s, R s s.
Hypothesis R_trans : forall a b c, R a b -> R b c -> R a c.
Hypothesis R_PortForward : forall s, R s (PortForward s).1.1.
Hypothesis R_handler : forall s, R s (handler_step s).1.1.
Hypothesis R_returns : forall r s, R s (ForwardPorts_returns r s).1.1.
Hypothesis R_relay : forall s, R s (relay s).

Lemma on_session_evolution j f p tid s :
  (forall s, R s (f s).1.1) ->
  sessions p !! tid = Some s ->
  exists s', sessions (on_session j f p) !! tid = Some s' /\ R s s'.
Proof.
  intros Hf E. unfold on_session.
  destruct (sessions p !! j) as [sj|] eqn:Ej; [|eauto].
  destruct (f sj) as [[sj' out] fate] eqn:Ef.
  rewrite commit_sessions.
  destruct (decide (j = tid)) as [->|Hne].
  - rewrite list_lookup_insert_eq by (eapply lookup_lt_Some; eauto).
    eexists; split; [done|].
    specialize (Hf sj). rewrite Ef in Hf. simpl in Hf. congruence.
  - rewrite list_lookup_insert_ne by done. eauto.
Qed.

Lemma step_evolution e p tid s :
  sessions p !! tid = Some s ->
  exists s', sessions (step e p) !! tid = Some s' /\ R s s'.
Proof.
  intros E. unfold step. destruct (status p); eauto.
  destruct e.
  - destruct (main_step_sessions p) as [->|(c & t & rc & cs & ->)]; [eauto|].
    exists s. split; [|done]. apply lookup_app_l_Some. done.
  - by apply on_session_evolution.
  - by apply on_session_evolution.
  - apply on_session_evolution; [|done]. intros s0. apply R_returns.
  - unfold interrupt. destruct (existsb _ _); simpl; [|eauto].
    exists (relay s). rewrite list_lookup_fmap, E. done.
Qed.

Lemma run_evolution evs p tid s :
  sessions p !! tid = Some s ->
  exists s', sessions (run evs p) !! tid = Some s' /\ R s s'.
Proof.
  revert p s. induction evs as [|e evs IH]; simpl; intros p s E; [eauto|].
  destruct (step_evolution e p tid s E) as (s1 & E1 & R1).
  destruct (IH _ _ E1) as (s2 & E2 & R2). eauto.
Qed.

End SessionEvolution.

(** ** Failures end the process *)

(** C1, as the code has it: a failed pod query, a failed forwarder
    construction or a forwarding error makes [PortForward] panic, which ends
    the whole process with exit status 2; the sibling sessions are left where
    they stood and no event moves any of them again. *)
Theorem session_failure_panics p tid s ev e :
  status p = Running ->
  sessions p !! tid = Some s ->
  failure tid s ev e ->
  status (step ev p) = Panicked e /\
  exit_code (status (step ev p)) = Some 2 /\
  (forall j, j <> tid -> sessions (step ev p) !! j = sessions p !! j) /\
  (forall evs, run evs (step ev p) = step ev p).
Proof.
  intros Hrun E F.
  assert (status (step ev p) = Panicked e /\
          forall j, j <> tid -> sessions (step ev p) !! j = sessions p !! j)
    as [Hst Hsib].
  { unfold step, on_session. rewrite Hrun.
    destruct F as [e Hpc HL|e Hpc HN|e Hpc]; rewrite E.
    - unfold PortForward. rewrite Hpc, HL. simpl. split; [done|].
      intros j Hj. by apply list_lookup_insert_ne.
    - unfold PortForward. rewrite Hpc, HN. simpl. split; [done|].
      intros j Hj. by apply list_lookup_insert_ne.
    - unfold ForwardPorts_returns. rewrite Hpc. simpl. split; [done|].
      intros j Hj. by apply list_lookup_insert_ne. }
  repeat split; try done.
  - by rewrite Hst.
  - intros evs. apply run_ended. by rewrite Hst.
Qed.

(** C2, as the code has it: when [spdy.RoundTripperFor] fails, the session
    prints [Error: ...] on standard output and calls [os.Exit(1)]: the whole
    process ends with exit code 1 and no sibling session moves again. *)
Theorem upgrade_error_exits_process p tid s e :
  status p = Running ->
  sessions p !! tid = Some s ->
  pc s = AtRoundTripperFor ->
  RoundTripperFor env (cfg s) = Some e ->
  status (step (Step tid) p) = Exited 1 /\
  stdout (step (Step tid) p) = stdout p ++ [msg_error e] /\
  (forall j, j <> tid ->
     sessions (step (Step tid) p) !! j = sessions p !! j) /\
  (forall evs, run evs (step (Step tid) p) = step (Step tid) p).
Proof.
  intros Hrun E Hpc HR.
  assert (step (Step tid) p =
          commit tid (advance s Crashed
                        [ARoundTripperFor; APrintf (msg_error e); AExit 1],
                      [msg_error e], OsExit 1) p) as ->.
  { unfold step, on_session, PortForward. by rewrite Hrun, E, Hpc, HR. }
  simpl. repeat split.
  - intros j Hj. by apply list_lookup_insert_ne.
  - intros evs. by apply run_ended.
Qed.

(** C3, as the code has it: when the connection configuration of a context
    cannot be resolved, [main] panics.  The process ends with exit status 2
    (not zero); no session is added for this context or for any later one,
    and the sessions of earlier contexts never move again. *)
Theorem auth_error_panics p c rest e :
  status p = Running ->
  mainpc p = MContexts (c :: rest) ->
  (ClientConfig env (Name c) = Err e \/
   exists rc, ClientConfig env (Name c) = Ok rc /\
              NewForConfig env rc = Err e) ->
  status (step MainStep p) = Panicked e /\
  exit_code (status (step MainStep p)) = Some 2 /\
  exit_code (status (step MainStep p)) <> Some 0 /\
  pending (mainpc (step MainStep p)) = declared_by (c :: rest) /\
  (forall evs, sessions (run evs (step MainStep p)) = sessions p) /\
  (forall evs, run evs (step MainStep p) = step MainStep p).
Proof.
  intros Hrun Hpc HA.
  assert (step MainStep p = main_panics p [msg_setting_up c] e) as ->.
  { unfold step, main_step. rewrite Hrun, Hpc.
    destruct HA as [->|(rc & -> & ->)]; done. }
  simpl. rewrite Hpc. repeat split; try done.
  - intros evs. by rewrite run_ended.
  - intros evs. by apply run_ended.
Qed.

(** C4, as the code has it: when [kube-tunnel-proxy.toml] cannot be read or
    decoded, [main] prints the error and goes on: the process keeps running,
    prints the configuration the decoder left behind and enters the loop over
    the contexts of that configuration. *)
Theorem config_error_is_only_printed :
  let read := ReadFile env "kube-tunnel-proxy.toml" in
  let dec := Decode env (string_of_bytes read.1) in
  read.2 <> None \/ dec.2 <> None ->
  status (step MainStep main_toml) = Running /\
  mainpc (step MainStep main_toml) = MContexts (Contexts dec.1) /\
  stdout (step MainStep main_toml) =
    println_error read.2 ++ println_error dec.2 ++ [fmt_Config dec.1 +:+ nl] /\
  println_error read.2 ++ println_error dec.2 <> [] /\
  pending (mainpc (step MainStep main_toml)) = pending (mainpc main_toml).
Proof.
  intros read dec H. subst read dec.
  unfold step, main_step. simpl.
  destruct (ReadFile env "kube-tunnel-proxy.toml") as [data rerr]. simpl in *.
  destruct (Decode env (string_of_bytes data)) as [config derr]. simpl in *.
  repeat split; try done.
  destruct rerr, derr; simpl; try done. destruct H; congruence.
Qed.

(** ** Resolution *)

Lemma count_where_app {A} (f : A -> bool) (l1 l2 : list A) :
  count_where f (l1 ++ l2) = (count_where f l1 + count_where f l2)%nat.
Proof.
  induction l1 as [|x l1 IH]; simpl; [done|].
  destruct (f x); simpl; by rewrite IH.
Qed.








Lemma picks_first_PortForward s :
  picks_first s -> picks_first (PortForward s).1.1.
Proof.
  unfold picks_first, listed. intros H.
  destruct (pc s) eqn:Hpc.
  - right. unfold PortForward. rewrite Hpc.
    destruct (ListPods env _ _ _) as [items|e] eqn:HL; simpl.
    + destruct (Z.of_nat (length items) <? 1) eqn:Hlen; simpl.
      * rewrite HL. intros items' [= <-] Hge.
        apply Z.ltb_lt in Hlen. lia.
      * destruct (items !! 0%nat) as [pod|] eqn:Hpod; simpl; rewrite HL;
          intros items' [= <-] Hge.
        -- rewrite head_lookup, Hpod. done.
        -- apply lookup_ge_None in Hpod. lia.
    + rewrite HL. done.
  - destruct H as [H|H]; [congruence|]. right. goroutine_cases; done.
  - destruct H as [H|H]; [congruence|]. right. goroutine_cases; done.
  - destruct H as [H|H]; [congruence|]. right.
    unfold PortForward. rewrite Hpc. destruct (stopChan s); done.
  - destruct H as [H|H]; [congruence|]. right.
    unfold PortForward. rewrite Hpc. done.
  - destruct H as [H|H]; [congruence|]. right.
    unfold PortForward. rewrite Hpc. done.
Qed.

Lemma picks_first_reachable p0 evs tid s :
  initial p0 -> sessions (run evs p0) !! tid = Some s -> picks_first s.
Proof.
  apply (reachable_invariant picks_first).
  - by left.
  - apply picks_first_PortForward.
  - unfold picks_first, listed. intros s0 [H|H]; goroutine_cases; auto.
  - unfold picks_first, listed. intros r s0 [H|H]; goroutine_cases; auto;
      congruence.
  - unfold picks_first, listed. intros s0 [H|H]; goroutine_cases; auto.
Qed.

(** C9: when the selector of a session matches more than one pod, the pod
    the session forwards to is the first of the list the cluster returned:
    the step that runs the query sets [podName] to it, and [podName] names it
    in every later state. *)
Theorem first_pod_is_picked p0 evs tid s items :
  initial p0 ->
  sessions (run evs p0) !! tid = Some s ->
  listed s = Ok items ->
  (1 < length items)%nat ->
  (pc s <> AtList -> Some (podName s) = PodName <$> head items) /\
  (pc s = AtList -> status (run evs p0) = Running ->
   exists s', sessions (step (Step tid) (run evs p0)) !! tid = Some s' /\
              pc s' = AtRoundTripperFor /\
              Some (podName s') = PodName <$> head items).
Proof.
  intros H0 E HL Hlen. split.
  - intros Hpc. destruct (picks_first_reachable _ _ _ _ H0 E) as [H|H];
      [done|]. apply H; [done|lia].
  - intros Hpc Hrun.
    destruct items as [|pod items]; [simpl in Hlen; lia|].
    exists (start_forwarding s (PodName pod)).
    unfold step, on_session. rewrite Hrun, E.
    unfold PortForward. unfold listed in HL. rewrite Hpc, HL. simpl.
    replace (Z.of_nat (S (length items)) <? 1) with false
      by (symmetry; apply Z.ltb_ge; lia).
    rewrite commit_sessions. split; [|done].
    apply list_lookup_insert_eq. eapply lookup_lt_Some; eauto.
Qed.

(** ** The WaitGroup *)

Lemma count_where_insert {A} (f : A -> bool) (l : list A) i x y :
  l !! i = Some x ->
  (count_where f (<[i:=y]> l) + (if f x then 1 else 0) =
   count_where f l + (if f y then 1 else 0))%nat.
Proof.
  revert i. induction l as [|z l IH]; intros [|i] E; simpl in *; try done.
  - injection E as ->. destruct (f x), (f y); lia.
  - specialize (IH _ E). destruct (f z); lia.
Qed.

Lemma count_where_fmap {A} (f : A -> bool) (g : A -> A) (l : list A) :
  (forall x, f (g x) = f x) -> count_where f (g <$> l) = count_where f l.
Proof.
  intros H. induction l as [|z l IH]; [done|].
  change (g <$> z :: l) with (g z :: (g <$> l)). simpl. by rewrite H, IH.
Qed.

Lemma count_where_none {A} (f : A -> bool) (l : list A) :
  count_where f l = 0%nat -> Forall (fun x => f x = false) l.
Proof.
  induction l as [|z l IH]; simpl; [constructor|].
  destruct (f z) eqn:Hz; [done|]. constructor; auto.
Qed.

Lemma PortForward_fits s : fate_fits s (PortForward s).
Proof. unfold fate_fits, live. goroutine_cases; auto; congruence. Qed.

Lemma handler_step_fits s : fate_fits s (handler_step s).
Proof. unfold fate_fits, live. goroutine_cases; auto; congruence. Qed.

Lemma ForwardPorts_returns_fits r s : fate_fits s (ForwardPorts_returns r s).
Proof. unfold fate_fits, live. goroutine_cases; auto; congruence. Qed.

Lemma on_session_accounted tid f p :
  (forall s, fate_fits s (f s)) ->
  status p = Running -> accounted p -> accounted (on_session tid f p).
Proof.
  intros Hf Hrun Hp. unfold on_session.
  destruct (sessions p !! tid) as [s|] eqn:E; [|done].
  specialize (Hf s). destruct (f s) as [[s' out] fate].
  unfold accounted in Hp. rewrite Hrun in Hp. destruct Hp as [Hwg Hm].
  pose proof (count_where_insert live _ _ _ s' E) as Hc.
  unfold fate_fits in Hf. simpl in Hf.
  unfold accounted, commit. destruct fate; simpl.
  - rewrite Hrun. split; [|done]. rewrite Hf in Hc. destruct (live s); lia.
  - destruct Hf as [Hs Hs']. rewrite Hs, Hs' in Hc.
    destruct (wg p) as [|n] eqn:Hn; simpl; [done|].
    rewrite Hrun. split; [lia|done].
  - done.
  - subst. auto.
Qed.

Lemma step_accounted e p : accounted p -> accounted (step e p).
Proof.
  intros Hp. unfold step. destruct (status p) eqn:Hrun; try done.
  destruct e.
  - unfold accounted in Hp. rewrite Hrun in Hp. destruct Hp as [Hwg Hm].
    unfold main_step, main_moves, main_panics, accounted.
    repeat case_match; simpl in *; try rewrite Hrun; try done;
      try (split; [done|congruence]); try congruence.
    + split; [|done]. rewrite count_where_app. simpl. lia.
    + split; congruence.
    + left. repeat split; congruence.
  - apply on_session_accounted; auto using PortForward_fits.
  - apply on_session_accounted; auto using handler_step_fits.
  - apply on_session_accounted; auto using ForwardPorts_returns_fits.
  - unfold accounted in Hp. rewrite Hrun in Hp. destruct Hp as [Hwg Hm].
    unfold interrupt, accounted. destruct (existsb _ _); simpl; [|done].
    rewrite Hrun. split; [|done].
    rewrite count_where_fmap; [done|].
    intros s. unfold relay, live. by destruct (notified s).
Qed.

Lemma run_accounted evs p : accounted p -> accounted (run evs p).
Proof.
  revert p. induction evs as [|e evs IH]; simpl; intros p Hp; [done|].
  by apply IH, step_accounted.
Qed.

Lemma reachable_accounted p0 evs : initial p0 -> accounted (run evs p0).
Proof. intros H0. apply run_accounted. destruct H0; done. Qed.

(** ** No pods *)

Lemma no_pods_outcome_reachable p0 evs tid s :
  initial p0 -> sessions (run evs p0) !! tid = Some s -> no_pods_outcome s.
Proof.
  apply (reachable_invariant no_pods_outcome).
  - intros c t rc cs _. simpl. auto.
  - unfold no_pods_outcome, listed. intros s0 H. unfold PortForward.
    destruct (pc s0) eqn:Hpc.
    + destruct (ListPods env _ _ _) as [items|e] eqn:HL; simpl.
      * destruct (Z.of_nat (length items) <? 1) eqn:Hlen; simpl.
        -- rewrite HL. intros [= ->].
           destruct H as (Hc & Hh & [[_ Ha]|[Hr _]]); [done| |congruence].
           rewrite Ha. simpl. auto.
        -- destruct (items !! 0%nat); simpl; rewrite HL; intros [= ->];
             simpl in Hlen; done.
      * rewrite HL. done.
    + destruct (RoundTripperFor env (cfg s0)); simpl; intros HL;
        destruct (H HL) as (_ & _ & [[? _]|[? _]]); congruence.
    + destruct (New env _ _ _ _ _); simpl; intros HL;
        destruct (H HL) as (_ & _ & [[? _]|[? _]]); congruence.
    + destruct (stopChan s0); simpl; intros HL;
        destruct (H HL) as (_ & _ & [[? _]|[? _]]); congruence.
    + simpl. rewrite Hpc. exact H.
    + simpl. rewrite Hpc. exact H.
  - unfold no_pods_outcome, listed. intros s0 H. unfold handler_step.
    destruct (handler s0) eqn:Hh; try (simpl; rewrite ?Hh; exact H).
    destruct (signals s0); try (simpl; rewrite ?Hh; exact H).
    destruct (stopChan s0); simpl; intros HL;
      destruct (H HL) as (_ & ? & _); congruence.
  - unfold no_pods_outcome, listed. intros r s0 H. unfold ForwardPorts_returns.
    destruct (pc s0) eqn:Hpc; try (simpl; rewrite ?Hpc; exact H).
    destruct r; simpl; intros HL;
      destruct (H HL) as (_ & _ & [[? _]|[? _]]); congruence.
  - unfold no_pods_outcome, listed, relay. intros s0 H.
    destruct (notified s0); exact H.
Qed.

(** C5: a session whose selector matches no pod does nothing but the query,
    the one line [No pods found] and its return: it never reaches
    [ForwardPorts], makes no channel and starts no handler.  The step that
    finds the empty list prints exactly that line, releases the WaitGroup and
    leaves the process running; once every session has returned [wg.Wait()]
    lets [main] return, and whenever [main] has returned the exit code
    is 0. *)
Theorem no_pods_ends_session_only p0 evs tid s :
  initial p0 ->
  sessions (run evs p0) !! tid = Some s ->
  listed s = Ok [] ->
  ((pc s = AtList /\ acts s = []) \/
   (pc s = Returned /\
    acts s = [AList (Namespace (tunnel s)) (Selector (tunnel s));
              APrintf (msg_no_pods s); AWgDone])) /\
  count_where opens_channel (acts s) = 0%nat /\
  stopChan s = NilChan /\
  count_where is_printf (acts s) = (if live s then 0 else 1)%nat /\
  (pc s = AtList -> status (run evs p0) = Running ->
   status (step (Step tid) (run evs p0)) = Running /\
   stdout (step (Step tid) (run evs p0)) =
     stdout (run evs p0) ++ [msg_no_pods s] /\
   S (wg (step (Step tid) (run evs p0))) = wg (run evs p0) /\
   exists s', sessions (step (Step tid) (run evs p0)) !! tid = Some s' /\
              pc s' = Returned /\
              acts s' = [AList (Namespace (tunnel s)) (Selector (tunnel s));
                         APrintf (msg_no_pods s); AWgDone]) /\
  (status (run evs p0) = Running -> mainpc (run evs p0) = MWait ->
   Forall (fun s' => pc s' = Returned) (sessions (run evs p0)) ->
   status (step MainStep (run evs p0)) = Exited 0) /\
  (mainpc (run evs p0) = MDone ->
   status (run evs p0) = Exited 0 /\
   exit_code (status (run evs p0)) = Some 0).
Proof.
  intros H0 E HL.
  destruct (no_pods_outcome_reachable _ _ _ _ H0 E HL) as (Hc & Hh & Hs).
  pose proof (reachable_accounted _ evs H0) as Hacc.
  set (p := run evs p0) in *.
  split; [done|]. split; [|split; [done|split; [|split; [|split]]]].
  - destruct Hs as [[_ ->]|[_ ->]]; done.
  - unfold live. destruct Hs as [[-> ->]|[-> ->]]; done.
  - intros Hpc Hrun.
    destruct Hs as [[_ Ha]|[? _]]; [|congruence].
    unfold accounted in Hacc. rewrite Hrun in Hacc. destruct Hacc as [Hwg _].
    assert (step (Step tid) p =
            commit tid (advance s Returned
                          [AList (Namespace (tunnel s)) (Selector (tunnel s));
                           APrintf (msg_no_pods s); AWgDone],
                        [msg_no_pods s], Return) p) as ->.
    { unfold step, on_session, PortForward. unfold listed in HL.
      by rewrite Hrun, E, Hpc, HL. }
    pose proof (count_where_insert live _ _ _
                  (advance s Returned
                     [AList (Namespace (tunnel s)) (Selector (tunnel s));
                      APrintf (msg_no_pods s); AWgDone]) E) as Hcnt.
    assert (live s = true) as Hl by (unfold live; by rewrite Hpc).
    rewrite Hl in Hcnt. simpl in Hcnt.
    unfold commit. destruct (wg p) as [|n] eqn:Hn; [lia|]. simpl.
    repeat split; try done.
    eexists. split.
    + apply list_lookup_insert_eq. eapply lookup_lt_Some; eauto.
    + simpl. rewrite Ha. done.
  - intros Hrun Hm Hall.
    unfold accounted in Hacc. rewrite Hrun in Hacc. destruct Hacc as [Hwg _].
    assert (count_where live (sessions p) = 0%nat) as Hz.
    { clear -Hall. induction Hall as [|x l Hx _ IH]; simpl; [done|].
      unfold live at 1. by rewrite Hx. }
    unfold step, main_step. rewrite Hrun, Hm, Hwg, Hz. done.
  - intros Hm. unfold accounted in Hacc.
    destruct (status p) as [|c|e|]; try (destruct Hacc; congruence);
      try congruence.
    destruct Hacc as [(-> & _)|(_ & ?)]; [done|congruence].
Qed.

(** ** One session per declared tunnel *)






Lemma on_session_mainpc tid f p : mainpc (on_session tid f p) = mainpc p.
Proof.
  unfold on_session. destruct (sessions p !! tid); [|done].
  apply commit_mainpc.
Qed.



Lemma step_Step tid p :
  status p = Running -> step (Step tid) p = on_session tid PortForward p.
Proof. intros H. unfold step. by rewrite H. Qed.



(** ** Stopping *)

Lemma stops_once_PortForward s :
  stops_once s -> stops_once (PortForward s).1.1.
Proof.
  unfold stops_once, live. intros (H1 & H2 & H3). unfold PortForward.
  destruct (pc s) eqn:Hpc; simpl.
  - destruct (H1 eq_refl) as [Hh Ha].
    destruct H2 as [(_ & Hc & Hk)|[(? & _)|(? & _)]]; try congruence.
    repeat case_match; simpl; rewrite ?Ha, ?Hc, ?Hk, ?Hh; simpl;
      (split; [done|]); (split; [|done]); auto.
  - destruct (RoundTripperFor env (cfg s)); simpl;
      (split; [done|]); (split; [exact H2|]);
      rewrite count_where_app, H3; done.
  - destruct (New env _ _ _ _ _); simpl;
      (split; [done|]); (split; [exact H2|]);
      rewrite count_where_app, H3; done.
  - destruct (stopChan s) eqn:Hc; simpl; rewrite ?Hpc;
      (split; [done|]); (split; [rewrite ?Hc; exact H2|]);
      rewrite ?count_where_app, ?H3; done.
  - rewrite Hpc. auto.
  - rewrite Hpc. auto.
Qed.

Lemma stops_once_returns r s :
  stops_once s -> stops_once (ForwardPorts_returns r s).1.1.
Proof.
  unfold stops_once, live. intros (H1 & H2 & H3). unfold ForwardPorts_returns.
  destruct (pc s) eqn:Hpc; simpl; rewrite ?Hpc; auto.
  destruct r; simpl; (split; [done|]); (split; [exact H2|]);
    rewrite count_where_app, H3; done.
Qed.

Lemma stops_once_handler s :
  stops_once s -> stops_once (handler_step s).1.1.
Proof.
  unfold stops_once, live. intros (H1 & H2 & H3). unfold handler_step.
  destruct (handler s) eqn:Hh; simpl; rewrite ?Hh; auto.
  destruct (signals s) eqn:Hs; simpl; rewrite ?Hh; auto.
  destruct H2 as [(? & _)|[(_ & Hc & Hk)|(? & _)]]; try congruence.
  rewrite Hc. simpl. rewrite Hk. simpl. split; [|split; [|done]].
  - intros Hpc. destruct (H1 Hpc). congruence.
  - right. right. done.
Qed.

Lemma stops_once_relay s : stops_once s -> stops_once (relay s).
Proof. unfold stops_once, relay. intros H. by destruct (notified s). Qed.

Lemma stops_once_reachable p0 evs tid s :
  initial p0 -> sessions (run evs p0) !! tid = Some s -> stops_once s.
Proof.
  apply (reachable_invariant stops_once).
  - intros c t rc cs. unfold stops_once. simpl.
    split; [done|]. split; [by left|done].
  - apply stops_once_PortForward.
  - apply stops_once_handler.
  - apply stops_once_returns.
  - apply stops_once_relay.
Qed.








(** ** Further properties of [main] and [PortForward] *)

Lemma count_where_positive {A} (f : A -> bool) (l : list A) i x :
  l !! i = Some x -> f x = true -> (1 <= count_where f l)%nat.
Proof.
  revert i. induction l as [|z l IH]; intros [|i] E Hx; simpl in *; try done.
  - injection E as ->. rewrite Hx. lia.
  - specialize (IH _ E Hx). destruct (f z); lia.
Qed.

(** X1: the counter of the WaitGroup is the number of sessions that have not
    returned: [wg.Add(1)] precedes every [go PortForward] and the deferred
    [wg.Done()] runs at every return.  So [wg.Wait()] holds [main] back as
    long as one started session has not returned. *)
Theorem waitgroup_counts_live_sessions p0 evs :
  initial p0 ->
  status (run evs p0) = Running ->
  wg (run evs p0) = count_where live (sessions (run evs p0)) /\
  (forall tid s,
     mainpc (run evs p0) = MWait ->
     sessions (run evs p0) !! tid = Some s -> pc s <> Returned ->
     step MainStep (run evs p0) = run evs p0).
Proof.
  intros H0 Hrun. pose proof (reachable_accounted _ evs H0) as Hacc.
  unfold accounted in Hacc. rewrite Hrun in Hacc. destruct Hacc as [Hwg _].
  split; [done|]. intros tid s Hm E Hpc.
  assert (live s = true) as Hl by (unfold live; by destruct (pc s)).
  pose proof (count_where_positive live _ _ _ E Hl) as Hpos.
  unfold step, main_step. rewrite Hrun, Hm.
  destruct (wg (run evs p0)); [lia|done].
Qed.

Lemma commit_panicked tid s s' out f p e :
  accounted p -> status p = Running -> sessions p !! tid = Some s ->
  fate_fits s (s', out, f) ->
  status (commit tid (s', out, f) p) = Panicked e -> f = Panic e.
Proof.
  intros Hacc Hrun E Hf. unfold accounted in Hacc. rewrite Hrun in Hacc.
  destruct Hacc as [Hwg _]. unfold fate_fits in Hf. simpl in Hf.
  unfold commit. destruct f; simpl; try congruence.
  destruct Hf as [Hl _].
  pose proof (count_where_positive live _ _ _ E Hl) as Hpos.
  destruct (wg p); simpl; [lia|congruence].
Qed.

Lemma PortForward_panics s e :
  (PortForward s).2 = Panic e -> collaborator_error e.
Proof.
  unfold PortForward, collaborator_error.
  destruct (pc s); simpl; try done.
  - destruct (ListPods env _ _ _) as [items|e'] eqn:HL; simpl.
    + destruct (Z.of_nat (length items) <? 1) eqn:Hlen; simpl; [done|].
      destruct (items !! 0%nat) eqn:Hpod; simpl; [done|].
      apply lookup_ge_None in Hpod. apply Z.ltb_ge in Hlen. lia.
    + intros [= <-]. right. right. left. eauto.
  - by destruct (RoundTripperFor env (cfg s)).
  - destruct (New env _ _ _ _ _) eqn:HN; simpl; [|done].
    intros [= <-]. right. right. right. eauto 10.
  - by destruct (stopChan s).
Qed.

Lemma step_panicked ev p e :
  accounted p -> Forall stops_once (sessions p) -> status p = Running ->
  status (step ev p) = Panicked e ->
  collaborator_error e \/ exists tid, ev = ChannelEnds tid (Some e).
Proof.
  intros Hacc Hall Hrun. unfold step. rewrite Hrun. destruct ev.
  - unfold main_step, main_moves, main_panics, collaborator_error.
    repeat case_match; simpl; try congruence; intros [= <-]; left; eauto.
  - unfold on_session. destruct (sessions p !! tid) as [s|] eqn:E;
      [|congruence].
    pose proof (PortForward_fits s) as Hf.
    pose proof (PortForward_panics s) as Hp.
    destruct (PortForward s) as [[s' out] f]. intros H.
    rewrite (commit_panicked _ _ _ _ _ _ _ Hacc Hrun E Hf H) in Hp.
    left. by apply Hp.
  - unfold on_session. destruct (sessions p !! tid) as [s|] eqn:E;
      [|congruence].
    pose proof (handler_step_fits s) as Hf.
    pose proof (Forall_lookup_1 _ _ _ _ Hall E) as (_ & H2 & _).
    assert ((handler_step s).2 <> Panic e) as Hn.
    { unfold handler_step. destruct (handler s) eqn:Hh; try done.
      destruct (signals s); try done.
      destruct (stopChan s) eqn:Hc; simpl; try done.
      destruct H2 as [(? & _)|[(_ & ? & _)|(? & _)]]; congruence. }
    destruct (handler_step s) as [[s' out] f]. intros H.
    by rewrite (commit_panicked _ _ _ _ _ _ _ Hacc Hrun E Hf H) in Hn.
  - unfold on_session. destruct (sessions p !! tid) as [s|] eqn:E;
      [|congruence].
    pose proof (ForwardPorts_returns_fits r s) as Hf.
    assert ((ForwardPorts_returns r s).2 = Panic e -> r = Some e) as Hp.
    { unfold ForwardPorts_returns. destruct (pc s); simpl; try done.
      destruct r; simpl; congruence. }
    destruct (ForwardPorts_returns r s) as [[s' out] f]. intros H.
    rewrite (commit_panicked _ _ _ _ _ _ _ Hacc Hrun E Hf H) in Hp.
    right. exists tid. by rewrite Hp.
  - unfold interrupt. destruct (existsb _ _); simpl; congruence.
Qed.

Lemma run_stops_once evs p :
  Forall stops_once (sessions p) -> Forall stops_once (sessions (run evs p)).
Proof.
  apply (run_invariant stops_once).
  - intros c t rc cs. unfold stops_once. simpl.
    split; [done|]. split; [by left|done].
  - apply stops_once_PortForward.
  - apply stops_once_handler.
  - apply stops_once_returns.
  - apply stops_once_relay.
Qed.

Lemma run_panicked evs p e :
  accounted p -> Forall stops_once (sessions p) -> status p = Running ->
  status (run evs p) = Panicked e ->
  collaborator_error e \/ exists tid, ChannelEnds tid (Some e) ∈ evs.
Proof.
  revert p. induction evs as [|ev evs IH]; simpl; intros p Hacc Hall Hrun H;
    [congruence|].
  destruct (status (step ev p)) eqn:Hs.
  - destruct (IH (step ev p)) as [?|(tid & ?)]; auto.
    + by apply step_accounted.
    + by apply (run_stops_once [ev]).
    + right. exists tid. by apply list_elem_of_further.
  - rewrite run_ended in H by congruence. congruence.
  - rewrite run_ended in H by congruence.
    assert (status (step ev p) = Panicked e) as Hp by congruence.
    destruct (step_panicked ev p e Hacc Hall Hrun Hp) as [?|(tid & ->)];
      [by left|].
    right. exists tid. apply list_elem_of_here.
  - rewrite run_ended in H by congruence. congruence.
Qed.

(** X2: the program has no panic of its own.  When a run has ended in a panic,
    the panic carries an error that a library returned to [main] or to
    [PortForward], or the error with which [ForwardPorts] came back: the
    guard [len(pods.Items) < 1] keeps [pods.Items[0]] in range, the counter
    of the WaitGroup never goes below zero, and [stopChan] is never closed
    twice. *)
Theorem panic_comes_from_a_collaborator p0 evs e :
  initial p0 ->
  status (run evs p0) = Panicked e ->
  collaborator_error e \/ exists tid, ChannelEnds tid (Some e) ∈ evs.
Proof.
  intros H0. apply run_panicked; destruct H0; simpl; try done;
    by constructor.
Qed.

Lemma PortForward_exits s c :
  (PortForward s).2 = OsExit c ->
  exists e,
    RoundTripperFor env (cfg s) = Some e /\
    PortForward s =
      (advance s Crashed [ARoundTripperFor; APrintf (msg_error e); AExit 1],
       [msg_error e], OsExit 1).
Proof.
  unfold PortForward. destruct (pc s); simpl; try done.
  - repeat case_match; simpl; done.
  - destruct (RoundTripperFor env (cfg s)) as [e|]; simpl; [eauto|done].
  - by destruct (New env _ _ _ _ _).
  - by destruct (stopChan s).
Qed.

Lemma commit_exited tid s' out f p c :
  status p = Running ->
  status (commit tid (s', out, f) p) = Exited c -> f = OsExit c.
Proof.
  intros Hrun. unfold commit.
  destruct f; simpl; try congruence. destruct (wg p); simpl; congruence.
Qed.

Lemma step_exited ev p :
  status p = Running -> status (step ev p) = Exited 1 ->
  exists tid s e,
    sessions (step ev p) !! tid = Some s /\ pc s = Crashed /\
    RoundTripperFor env (cfg s) = Some e /\
    msg_error e ∈ stdout (step ev p).
Proof.
  intros Hrun. unfold step. rewrite Hrun. destruct ev.
  - unfold main_step, main_moves, main_panics.
    repeat case_match; simpl; congruence.
  - unfold on_session. destruct (sessions p !! tid) as [s|] eqn:E;
      [|congruence].
    pose proof (PortForward_exits s 1) as Hx.
    destruct (PortForward s) as [[s' out] f] eqn:P. intros H.
    pose proof (commit_exited _ _ _ _ _ _ Hrun H) as ->.
    destruct (Hx eq_refl) as (e & HR & [= -> ->]).
    exists tid, (advance s Crashed
                   [ARoundTripperFor; APrintf (msg_error e); AExit 1]), e.
    simpl. split; [|split; [done|split; [done|]]].
    + apply list_lookup_insert_eq. eapply lookup_lt_Some; eauto.
    + apply elem_of_app. right. by apply list_elem_of_singleton.
  - unfold on_session. destruct (sessions p !! tid) as [s|] eqn:E;
      [|congruence].
    assert (forall c, (handler_step s).2 <> OsExit c) as Hn.
    { intros c. unfold handler_step. repeat case_match; done. }
    destruct (handler_step s) as [[s' out] f]. intros H.
    pose proof (commit_exited _ _ _ _ _ _ Hrun H) as ->. by destruct (Hn 1).
  - unfold on_session. destruct (sessions p !! tid) as [s|] eqn:E;
      [|congruence].
    assert (forall c, (ForwardPorts_returns r s).2 <> OsExit c) as Hn.
    { intros c. unfold ForwardPorts_returns. repeat case_match; done. }
    destruct (ForwardPorts_returns r s) as [[s' out] f]. intros H.
    pose proof (commit_exited _ _ _ _ _ _ Hrun H) as ->. by destruct (Hn 1).
  - unfold interrupt. destruct (existsb _ _); simpl; congruence.
Qed.

Lemma run_exited evs p :
  status p = Running -> status (run evs p) = Exited 1 ->
  exists tid s e,
    sessions (run evs p) !! tid = Some s /\ pc s = Crashed /\
    RoundTripperFor env (cfg s) = Some e /\
    msg_error e ∈ stdout (run evs p).
Proof.
  revert p. induction evs as [|ev evs IH]; simpl; intros p Hrun H;
    [congruence|].
  destruct (status (step ev p)) eqn:Hs; [by apply IH| | |];
    rewrite run_ended in H |- * by congruence; try congruence.
  apply step_exited; [done|congruence].
Qed.

(** X3: how a process of this program ends with an exit status.  Status 0
    means [main] returned, every session having returned before.  Status 1
    means [spdy.RoundTripperFor] refused the configuration of some session,
    which printed the error and then called [os.Exit(1)], so the [Error]
    line is on standard output.  Status 2 is that of a panic. *)
Theorem exit_code_origin p0 evs c :
  initial p0 ->
  exit_code (status (run evs p0)) = Some c ->
  (c = 0 /\ status (run evs p0) = Exited 0 /\
   mainpc (run evs p0) = MDone /\
   Forall (fun s => pc s = Returned) (sessions (run evs p0))) \/
  (c = 1 /\ status (run evs p0) = Exited 1 /\
   exists tid s e,
     sessions (run evs p0) !! tid = Some s /\ pc s = Crashed /\
     RoundTripperFor env (cfg s) = Some e /\
     msg_error e ∈ stdout (run evs p0)) \/
  (c = 2 /\ exists e, status (run evs p0) = Panicked e).
Proof.
  intros H0 Hc. pose proof (reachable_accounted _ evs H0) as Hacc.
  unfold accounted in Hacc.
  destruct (status (run evs p0)) as [|c'|e|] eqn:Hex; simpl in Hc;
    try done; injection Hc as <-.
  - destruct Hacc as [(-> & Hm & Hl)|(-> & _)].
    + left. split; [done|]. split; [done|]. split; [done|].
      apply count_where_none in Hl. eapply Forall_impl; [exact Hl|].
      intros s. unfold live. by destruct (pc s).
    + right. left. split; [done|]. split; [done|].
      apply run_exited; [by destruct H0|done].
  - right. right. split; [done|]. by exists e.
Qed.

Lemma step_configured e p :
  Forall configured (sessions p) -> main_configured (mainpc p) ->
  Forall configured (sessions (step e p)) /\
  main_configured (mainpc (step e p)).
Proof.
  intros HS HM. unfold step. destruct (status p); try done.
  destruct e.
  - unfold main_step, main_moves, main_panics.
    repeat case_match; simpl; subst; try done;
      try (split; [done|];
           match goal with H : mainpc p = _ |- _ => by rewrite H end).
    simpl in HM.
    split; [|done]. apply Forall_app. split; [done|].
    apply Forall_singleton. exact HM.
  - rewrite on_session_mainpc. split; [|done].
    apply on_session_invariant; [|done]. unfold configured.
    intros s. goroutine_cases; done.
  - rewrite on_session_mainpc. split; [|done].
    apply on_session_invariant; [|done]. unfold configured.
    intros s. goroutine_cases; done.
  - rewrite on_session_mainpc. split; [|done].
    apply on_session_invariant; [|done]. unfold configured.
    intros s. goroutine_cases; done.
  - unfold interrupt. destruct (existsb _ _); simpl; [|done].
    split; [|done]. apply Forall_fmap. eapply Forall_impl; [exact HS|].
    intros s H. unfold compose, relay. destruct (notified s); exact H.
Qed.

Lemma run_configured evs p :
  Forall configured (sessions p) -> main_configured (mainpc p) ->
  Forall configured (sessions (run evs p)).
Proof.
  revert p. induction evs as [|e evs IH]; simpl; intros p HS HM; [done|].
  destruct (step_configured e p HS HM). by apply IH.
Qed.

(** X4: every session works with the [*rest.Config] and the client set that
    [main] resolved for the name of the session's own context, so two
    sessions of one context share both. *)
Theorem session_uses_its_context_configuration p0 evs tid s :
  initial p0 ->
  sessions (run evs p0) !! tid = Some s ->
  configured s /\
  (forall tid' s',
     sessions (run evs p0) !! tid' = Some s' -> context s' = context s ->
     cfg s' = cfg s /\ clientSet s' = clientSet s).
Proof.
  intros H0 E.
  assert (Forall configured (sessions (run evs p0))) as HF.
  { apply run_configured; destruct H0; simpl; done. }
  pose proof (Forall_lookup_1 _ _ _ _ HF E) as [H1 H2].
  split; [done|]. intros tid' s' E' Hctx.
  pose proof (Forall_lookup_1 _ _ _ _ HF E') as [H1' H2'].
  rewrite Hctx, H1 in H1'. injection H1' as Hcfg.
  rewrite <- Hcfg, H2 in H2'. injection H2' as Hcs. done.
Qed.

Lemma main_spawns ts p c rc k rest :
  status p = Running -> mainpc p = MTunnels c rc k ts rest ->
  status (run (replicate (length ts + 1) MainStep) p) = Running /\
  mainpc (run (replicate (length ts + 1) MainStep) p) = MContexts rest /\
  sessions (run (replicate (length ts + 1) MainStep) p) =
    sessions p ++ ((fun t => spawn (Name c) t rc k) <$> ts) /\
  wg (run (replicate (length ts + 1) MainStep) p) = (wg p + length ts)%nat /\
  stdout (run (replicate (length ts + 1) MainStep) p) = stdout p.
Proof.
  revert p. induction ts as [|t ts IH]; intros p Hrun Hm; simpl.
  - unfold step, main_step. rewrite Hrun, Hm. simpl.
    rewrite !app_nil_r. repeat split; try done; lia.
  - assert (step MainStep p =
            {| mainpc := MTunnels c rc k ts rest;
               sessions := sessions p ++ [spawn (Name c) t rc k];
               wg := S (wg p); stdout := stdout p; status := status p |})
      as ->.
    { unfold step, main_step. by rewrite Hrun, Hm. }
    match goal with |- context [run _ ?q] => set (p1 := q) end.
    destruct (IH p1) as (H1 & H2 & H3 & H4 & H5); [done|done|].
    rewrite H1, H2, H3, H4, H5. simpl.
    rewrite <- app_assoc. repeat split; try done; lia.
Qed.

Lemma main_sets_up cs p :
  status p = Running -> mainpc p = MContexts cs -> Forall resolves cs ->
  status (run (replicate (main_steps cs) MainStep) p) = Running /\
  mainpc (run (replicate (main_steps cs) MainStep) p) = MWait /\
  (exists new,
     sessions (run (replicate (main_steps cs) MainStep) p) =
       sessions p ++ new /\
     declaration <$> new = declared_by cs /\
     Forall (fun s => pc s = AtList /\ acts s = []) new /\
     wg (run (replicate (main_steps cs) MainStep) p) =
       (wg p + length new)%nat) /\
  stdout (run (replicate (main_steps cs) MainStep) p) =
    stdout p ++ (msg_setting_up <$> cs).
Proof.
  revert p. induction cs as [|c cs IH]; intros p Hrun Hm Hres; simpl.
  - unfold step, main_step. rewrite Hrun, Hm. simpl.
    rewrite !app_nil_r. split; [done|]. split; [done|]. split; [|done].
    exists []. rewrite app_nil_r. repeat split; try done; lia.
  - apply Forall_cons in Hres as [(rc & k & HC & HN) Hres].
    replace (length (Tunnels c) + 2 + main_steps cs)%nat
      with (S ((length (Tunnels c) + 1) + main_steps cs)) by lia.
    rewrite replicate_S, replicate_add. simpl. rewrite run_app.
    assert (step MainStep p =
            main_moves p (MTunnels c rc k (Tunnels c) cs) [msg_setting_up c])
      as ->.
    { unfold step, main_step. by rewrite Hrun, Hm, HC, HN. }
    match goal with |- context [run _ (run _ ?q)] => set (p1 := q) end.
    destruct (main_spawns (Tunnels c) p1 c rc k cs)
      as (H1 & H2 & H3 & H4 & H5); [done|done|].
    match goal with |- context [run _ (run ?l p1)] => set (p2 := run l p1) in *
    end.
    destruct (IH p2 H1 H2 Hres) as (G1 & G2 & (new & G3 & G4 & G5 & G6) & G7).
    split; [done|]. split; [done|]. split.
    + exists (((fun t => spawn (Name c) t rc k) <$> Tunnels c) ++ new).
      rewrite G3, H3. simpl. rewrite <- app_assoc. split; [done|].
      split; [|split].
      * rewrite fmap_app, G4. unfold declared_by at 2. simpl.
        f_equal. unfold declared_in. rewrite <- list_fmap_compose.
        by apply list_fmap_ext.
      * apply Forall_app. split; [|done]. apply Forall_fmap.
        apply Forall_forall. done.
      * rewrite G6, H4. simpl. rewrite length_app, length_fmap. lia.
    + rewrite G7, H5. simpl. rewrite <- app_assoc. done.
Qed.

(** X5: [main], scheduled alone from the head of its loop, is never held up
    before [wg.Wait()]: when the connection configuration of every context
    resolves, it starts one session per declared tunnel, in the order of the
    declaration, each at its first statement, adds one to the WaitGroup for
    each and prints one [Setting up] line per context, sessions started
    earlier being left as they are. *)
Theorem main_starts_every_tunnel cs p :
  status p = Running ->
  mainpc p = MContexts cs ->
  Forall resolves cs ->
  status (run (replicate (main_steps cs) MainStep) p) = Running /\
  mainpc (run (replicate (main_steps cs) MainStep) p) = MWait /\
  (exists new,
     sessions (run (replicate (main_steps cs) MainStep) p) =
       sessions p ++ new /\
     declaration <$> new = declared_by cs /\
     Forall (fun s => pc s = AtList /\ acts s = []) new /\
     wg (run (replicate (main_steps cs) MainStep) p) =
       (wg p + length new)%nat) /\
  stdout (run (replicate (main_steps cs) MainStep) p) =
    stdout p ++ (msg_setting_up <$> cs).
Proof. apply main_sets_up. Qed.

Lemma run_listening evs p :
  Forall listening (sessions p) -> Forall listening (sessions (run evs p)).
Proof.
  apply (run_invariant listening).
  - done.
  - unfold listening. intros s0 H. unfold PortForward.
    destruct (pc s0) eqn:Hpc; simpl; rewrite ?Hpc; try done.
    + repeat case_match; simpl; done.
    + by destruct (RoundTripperFor env (cfg s0)).
    + by destruct (New env _ _ _ _ _).
    + destruct (stopChan s0); simpl; rewrite ?Hpc; done.
  - unfold listening. intros s0 H. unfold handler_step.
    destruct (handler s0); simpl; try done.
    destruct (signals s0) eqn:Hs; simpl; try done.
    destruct (stopChan s0); simpl; done.
  - unfold listening. intros r s0 H. unfold ForwardPorts_returns.
    destruct (pc s0) eqn:Hpc; simpl; rewrite ?Hpc; try done.
    by destruct r.
  - unfold listening, relay. intros s0 H.
    destruct (notified s0) eqn:Hn; simpl; rewrite ?Hn; exact H.
Qed.

Lemma listening_reachable p0 evs tid s :
  initial p0 -> sessions (run evs p0) !! tid = Some s -> listening s.
Proof.
  intros H0 E.
  assert (Forall listening (sessions (run evs p0))) as HF.
  { apply run_listening. destruct H0; simpl; constructor. }
  eapply Forall_lookup_1; eauto.
Qed.

Lemma existsb_lookup {A} (f : A -> bool) (l : list A) i x :
  l !! i = Some x -> f x = true -> existsb f l = true.
Proof.
  revert i. induction l as [|z l IH]; intros [|i] E Hx; simpl in *; try done.
  - injection E as ->. by rewrite Hx.
  - rewrite (IH _ E Hx). by destruct (f z).
Qed.

(** X6: an interrupt stops a forwarding session.  When SIGINT arrives while the
    session is blocked in [ForwardPorts] with its stop channel open, and the
    handler goroutine and then the session are scheduled, the handler prints
    the [Stopped forwarding] line for the session's pod and closes the
    channel once, [ForwardPorts] comes back, and [PortForward] returns
    through [signal.Stop] and [wg.Done()]; the process keeps running. *)
Theorem interrupt_stops_forwarding p0 evs tid s :
  initial p0 ->
  status (run evs p0) = Running ->
  sessions (run evs p0) !! tid = Some s ->
  pc s = AtForwardPorts ->
  stopChan s = Open ->
  status (run [Interrupt; Handler tid; Step tid] (run evs p0)) = Running /\
  S (wg (run [Interrupt; Handler tid; Step tid] (run evs p0)))
    = wg (run evs p0) /\
  stdout (run [Interrupt; Handler tid; Step tid] (run evs p0))
    = stdout (run evs p0) ++ [msg_stopped s] /\
  exists s',
    sessions (run [Interrupt; Handler tid; Step tid] (run evs p0)) !! tid
      = Some s' /\
    pc s' = Returned /\ stopChan s' = Closed /\ notified s' = false /\
    handler s' = Done /\
    hacts s' = [AReceive; APrintf (msg_stopped s); AClose] /\
    acts s' = acts s ++ [ASignalStop; AWgDone].
Proof.
  intros H0 Hrun E Hpc Hc.
  pose proof (listening_reachable _ _ _ _ H0 E) as Hn.
  unfold listening in Hn. rewrite Hpc in Hn.
  pose proof (stops_once_reachable _ _ _ _ H0 E) as (_ & H2 & _).
  assert (handler s = Waiting /\ hacts s = []) as [Hh Hk].
  { destruct H2 as [(_ & ? & _)|[(? & _ & ?)|(_ & ? & _)]]; try congruence.
    done. }
  pose proof (reachable_accounted _ evs H0) as Hacc.
  unfold accounted in Hacc. rewrite Hrun in Hacc. destruct Hacc as [Hwg _].
  assert (live s = true) as Hl by (unfold live; by rewrite Hpc).
  pose proof (count_where_positive live _ _ _ E Hl) as Hpos.
  set (p := run evs p0) in *.
  set (s1 := handled (relay s) Closed
               [AReceive; APrintf (msg_stopped s); AClose]).
  assert (step Interrupt p =
          {| mainpc := mainpc p; sessions := relay <$> sessions p;
             wg := wg p; stdout := stdout p; status := status p |}) as E1.
  { unfold step, interrupt. rewrite Hrun.
    by rewrite (existsb_lookup notified _ _ _ E Hn). }
  assert (handler_step (relay s) = (s1, [msg_stopped s], Continue)) as E2.
  { unfold s1, handler_step, handled, relay. rewrite Hn. simpl.
    rewrite Hh, Hc. destruct (signals s); reflexivity. }
  assert (PortForward s1 = (return_from_forward s1, [], Return)) as E3.
  { unfold PortForward, s1, handled, relay. rewrite Hn. simpl.
    by rewrite Hpc. }
  assert (step (Handler tid) (step Interrupt p) =
          commit tid (s1, [msg_stopped s], Continue) (step Interrupt p))
    as E4.
  { rewrite E1. unfold step, on_session. cbn [status sessions].
    rewrite Hrun, list_lookup_fmap, E.
    change (relay <$> Some s) with (Some (relay s)). cbv beta iota.
    by rewrite E2. }
  assert (step (Step tid)
            (commit tid (s1, [msg_stopped s], Continue) (step Interrupt p)) =
          commit tid (return_from_forward s1, [], Return)
            (commit tid (s1, [msg_stopped s], Continue) (step Interrupt p)))
    as E5.
  { rewrite E1. unfold step, on_session, commit. cbn [status sessions].
    rewrite Hrun.
    rewrite list_lookup_insert_eq
      by (rewrite length_fmap; eapply lookup_lt_Some; eauto).
    cbv beta iota. by rewrite E3. }
  change (run [Interrupt; Handler tid; Step tid] p)
    with (step (Step tid) (step (Handler tid) (step Interrupt p))).
  rewrite E4, E5.
  rewrite E1. simpl. destruct (wg p) as [|n] eqn:Hw; [lia|]. simpl.
  split; [done|]. split; [done|]. split; [by rewrite app_nil_r|].
  eexists. split.
  - apply list_lookup_insert_eq.
    rewrite length_insert, length_fmap. eapply lookup_lt_Some; eauto.
  - unfold s1, relay. rewrite Hn. simpl. rewrite Hk. done.
Qed.

Lemma inert_run evs p tid s :
  sessions p !! tid = Some s ->
  exists s', sessions (run evs p) !! tid = Some s' /\ inert s s'.
Proof.
  apply (run_evolution inert).
  - by intros s0 _ _ _.
  - unfold inert. intros a b c Hab Hbc H1 H2 H3.
    rewrite (Hab H1 H2 H3) in Hbc. auto.
  - unfold inert, PortForward. intros s0 H1 _ _. by rewrite H1.
  - unfold inert, handler_step. intros s0 _ _ H3. rewrite H3.
    by destruct (handler s0).
  - unfold inert, ForwardPorts_returns. intros r s0 H1 _ _. by rewrite H1.
  - unfold inert, relay. intros s0 _ H2 _. by rewrite H2.
Qed.

(** X7: when [ForwardPorts] comes back with [nil] by itself (the connection to
    the pod was lost) and no interrupt is pending, [PortForward] returns
    without a line on standard output and the process keeps running; the
    handler goroutine the session started stays blocked on [<-signals],
    since [signal.Stop] has been called: nothing that happens later changes
    the session, so its stop channel is never closed and its
    [Stopped forwarding] line is never printed. *)
Theorem lost_connection_leaves_handler_waiting p0 evs tid s :
  initial p0 ->
  status (run evs p0) = Running ->
  sessions (run evs p0) !! tid = Some s ->
  pc s = AtForwardPorts ->
  stopChan s = Open ->
  signals s = 0%nat ->
  status (step (ChannelEnds tid None) (run evs p0)) = Running /\
  stdout (step (ChannelEnds tid None) (run evs p0)) = stdout (run evs p0) /\
  S (wg (step (ChannelEnds tid None) (run evs p0))) = wg (run evs p0) /\
  exists s',
    sessions (step (ChannelEnds tid None) (run evs p0)) !! tid = Some s' /\
    pc s' = Returned /\ handler s' = Waiting /\ stopChan s' = Open /\
    hacts s' = [] /\
    forall evs',
      sessions (run evs' (step (ChannelEnds tid None) (run evs p0))) !! tid
        = Some s'.
Proof.
  intros H0 Hrun E Hpc Hc Hs.
  pose proof (stops_once_reachable _ _ _ _ H0 E) as (_ & H2 & _).
  assert (handler s = Waiting /\ hacts s = []) as [Hh Hk].
  { destruct H2 as [(_ & ? & _)|[(? & _ & ?)|(_ & ? & _)]]; try congruence.
    done. }
  pose proof (reachable_accounted _ evs H0) as Hacc.
  unfold accounted in Hacc. rewrite Hrun in Hacc. destruct Hacc as [Hwg _].
  assert (live s = true) as Hl by (unfold live; by rewrite Hpc).
  pose proof (count_where_positive live _ _ _ E Hl) as Hpos.
  set (p := run evs p0) in *.
  assert (step (ChannelEnds tid None) p =
          commit tid (return_from_forward s, [], Return) p) as E1.
  { unfold step, on_session, ForwardPorts_returns.
    by rewrite Hrun, E, Hpc. }
  assert (sessions (step (ChannelEnds tid None) p) !! tid
          = Some (return_from_forward s)) as E2.
  { rewrite E1, commit_sessions. apply list_lookup_insert_eq.
    eapply lookup_lt_Some; eauto. }
  split; [|split; [|split]].
  - rewrite E1. unfold commit. destruct (wg p); [lia|done].
  - rewrite E1. unfold commit. destruct (wg p); [lia|]. simpl.
    by rewrite app_nil_r.
  - rewrite E1. unfold commit. destruct (wg p); [lia|done].
  - exists (return_from_forward s). split; [done|]. simpl.
    split; [done|]. split; [done|]. split; [done|]. split; [done|].
    intros evs'. destruct (inert_run evs' _ _ _ E2) as (s' & E' & Hi).
    rewrite E'. f_equal. by apply Hi.
Qed.

Lemma run_sound evs p : sound p -> sound (run evs p).
Proof.
  intros (Ha & Hs & Hl). split; [|split].
  - by apply run_accounted.
  - by apply run_stops_once.
  - by apply run_listening.
Qed.

Lemma sound_reachable p0 evs : initial p0 -> sound (run evs p0).
Proof.
  intros H0. apply run_sound. split; [|split].
  - apply (reachable_accounted p0 [] H0).
  - destruct H0; simpl; constructor.
  - destruct H0; simpl; constructor.
Qed.

(** The handler goroutine never fails on a session whose channel it alone
    closes, and it leaves the place of [PortForward] alone. *)
Lemma handler_step_quiet s :
  stops_once s ->
  exists s1 out,
    handler_step s = (s1, out, Continue) /\ pc s1 = pc s /\
    (stopChan s = Open -> (1 <= signals s)%nat -> stopChan s1 = Closed).
Proof.
  intros (_ & H2 & _). unfold handler_step.
  destruct (handler s) eqn:Hh.
  1,3: by (exists s, []; split; [done|]; split; [done|];
           destruct H2 as [(? & ? & _)|[(? & ? & _)|(? & ? & _)]];
           congruence).
  destruct (signals s) as [|n] eqn:Hs.
  - exists s, []. split; [done|]. split; [done|]. intros _ ?; lia.
  - destruct H2 as [(? & ? & _)|[(_ & Hc & _)|(? & ? & _)]]; try congruence.
    rewrite Hc. eexists _, _. split; [done|]. simpl. done.
Qed.

(** The turn of session [k] in a shutdown: its handler, then the session. *)
Lemma stop_one k p :
  sound p -> stopping k p -> (k < length (sessions p))%nat ->
  status (run [Handler k; Step k] p) = Running /\
  mainpc (run [Handler k; Step k] p) = MWait /\
  exists s', sessions (run [Handler k; Step k] p) = <[k:=s']> (sessions p) /\
             pc s' = Returned.
Proof.
  intros (Hacc & Hso & _) (Hrun & Hm & Hst) Hk.
  destruct (lookup_lt_is_Some_2 _ _ Hk) as [s E].
  pose proof (Forall_lookup_1 _ _ _ _ Hso E) as Hs.
  destruct (handler_step_quiet s Hs) as (s1 & out & E1 & Hpc1 & Hc1).
  unfold accounted in Hacc. rewrite Hrun in Hacc. destruct Hacc as [Hwg _].
  assert (step (Handler k) p =
          {| mainpc := mainpc p; sessions := <[k:=s1]> (sessions p);
             wg := wg p; stdout := stdout p ++ out; status := Running |})
    as E2.
  { unfold step, on_session. rewrite Hrun, E, E1. unfold commit.
    by rewrite Hrun. }
  change (run [Handler k; Step k] p)
    with (step (Step k) (step (Handler k) p)).
  rewrite E2. unfold step, on_session. cbn [status sessions].
  rewrite list_lookup_insert_eq by done. cbv beta iota.
  destruct (Hst _ _ E) as [Hpc|(_ & Hpc & Hc & Hsig)].
  - assert (PortForward s1 = (s1, [], Continue)) as ->.
    { unfold PortForward. by rewrite Hpc1, Hpc. }
    simpl. split; [done|]. split; [done|]. exists s1.
    split; [apply list_insert_insert_eq|congruence].
  - assert (PortForward s1 = (return_from_forward s1, [], Return)) as ->.
    { unfold PortForward. by rewrite Hpc1, Hpc, (Hc1 Hc Hsig). }
    assert (live s = true) as Hl by (unfold live; by rewrite Hpc).
    pose proof (count_where_positive live _ _ _ E Hl) as Hpos.
    unfold commit. cbn [wg]. destruct (wg p) as [|n] eqn:Hw; [lia|].
    simpl. split; [done|]. split; [done|]. exists (return_from_forward s1).
    split; [apply list_insert_insert_eq|done].
Qed.

Lemma stopping_next k p s' :
  stopping k p -> pc s' = Returned ->
  forall q, status q = Running -> mainpc q = MWait ->
    sessions q = <[k:=s']> (sessions p) -> stopping (S k) q.
Proof.
  intros (_ & _ & Hst) Hpc q Hrun Hm Hq. split; [done|]. split; [done|].
  intros tid s E. rewrite Hq in E.
  destruct (decide (tid = k)) as [->|Hne].
  - apply list_lookup_insert_Some in E as [(_ & <- & _)|(? & _)]; [|done].
    by left.
  - rewrite list_lookup_insert_ne in E by done.
    destruct (Hst _ _ E) as [?|(? & ? & ? & ?)]; [by left|].
    right. split; [lia|done].
Qed.

(** Every session from [k] on takes its turn. *)
Lemma stop_rest m : forall k p,
  sound p -> stopping k p -> (k + m = length (sessions p))%nat ->
  sound (run (stops (seq k m)) p) /\
  stopping (k + m) (run (stops (seq k m)) p) /\
  length (sessions (run (stops (seq k m)) p)) = length (sessions p).
Proof.
  induction m as [|m IH]; intros k p Hsound Hst Hlen.
  - simpl. by rewrite Nat.add_0_r.
  - change (run (stops (seq k (S m))) p)
      with (run (stops (seq (S k) m)) (run [Handler k; Step k] p)).
    destruct (stop_one k p Hsound Hst ltac:(lia)) as (Hr & Hm & s' & Hs & Hpc).
    replace (k + S m)%nat with (S k + m)%nat by lia.
    assert (length (sessions (run [Handler k; Step k] p))
            = length (sessions p)) as Hl by (by rewrite Hs, length_insert).
    rewrite <- Hl. apply IH.
    + by apply run_sound.
    + by apply (stopping_next k p s').
    + lia.
Qed.

(** X8: one interrupt ends the program cleanly.  When [main] is in [wg.Wait()]
    and every session has returned or is forwarding with its stop channel
    open, and at least one is forwarding, then a single SIGINT, followed by
    every handler goroutine and every session getting its turn, lets every
    [PortForward] return and [main] leave [wg.Wait()]: the process ends with
    exit code 0, by no panic and no [os.Exit]. *)
Theorem interrupt_shuts_down_cleanly p0 evs :
  initial p0 ->
  status (run evs p0) = Running ->
  mainpc (run evs p0) = MWait ->
  (forall tid s, sessions (run evs p0) !! tid = Some s ->
     pc s = Returned \/ (pc s = AtForwardPorts /\ stopChan s = Open)) ->
  (exists tid s, sessions (run evs p0) !! tid = Some s /\
                 pc s = AtForwardPorts) ->
  status (run (shutdown (length (sessions (run evs p0)))) (run evs p0))
    = Exited 0 /\
  Forall (fun s => pc s = Returned)
    (sessions (run (shutdown (length (sessions (run evs p0)))) (run evs p0))).
Proof.
  intros H0 Hrun Hm Hall (tid0 & s0 & E0 & Hpc0).
  pose proof (sound_reachable p0 evs H0) as Hsound.
  set (p := run evs p0) in *.
  assert (notified s0 = true) as Hn0.
  { destruct Hsound as (_ & _ & Hl).
    pose proof (Forall_lookup_1 _ _ _ _ Hl E0) as Hn.
    unfold listening in Hn. by rewrite Hpc0 in Hn. }
  assert (step Interrupt p =
          {| mainpc := mainpc p; sessions := relay <$> sessions p;
             wg := wg p; stdout := stdout p; status := status p |}) as E1.
  { unfold step, interrupt. rewrite Hrun.
    by rewrite (existsb_lookup notified _ _ _ E0 Hn0). }
  assert (stopping 0 (step Interrupt p)) as Hst.
  { rewrite E1. split; [done|]. split; [done|]. cbn [sessions].
    intros tid s1 E. rewrite list_lookup_fmap in E.
    destruct (sessions p !! tid) as [s|] eqn:Es; [|done].
    injection E as <-.
    destruct (Hall _ _ Es) as [Hpc|[Hpc Hc]].
    - left. unfold relay. by destruct (notified s).
    - right. destruct Hsound as (_ & _ & Hl).
      pose proof (Forall_lookup_1 _ _ _ _ Hl Es) as Hn.
      unfold listening in Hn. rewrite Hpc in Hn.
      unfold relay. rewrite Hn. simpl.
      split; [lia|]. split; [done|]. split; [done|].
      destruct (signals s); lia. }
  assert (length (sessions (step Interrupt p)) = length (sessions p)) as Hlen.
  { rewrite E1. cbn [sessions]. apply length_fmap. }
  pose proof (run_sound [Interrupt] p Hsound) as Hsound1.
  change (run [Interrupt] p) with (step Interrupt p) in Hsound1.
  destruct (stop_rest (length (sessions p)) 0 (step Interrupt p) Hsound1 Hst
              ltac:(lia)) as (Hsound2 & (Hrun2 & Hm2 & Hst2) & Hlen2).
  unfold shutdown.
  change (run (Interrupt :: ?l) p) with (run l (step Interrupt p)).
  rewrite run_app.
  set (q := run (stops (seq 0 (length (sessions p)))) (step Interrupt p)) in *.
  assert (Forall (fun s => pc s = Returned) (sessions q)) as Hret.
  { apply Forall_lookup_2. intros tid s E.
    destruct (Hst2 _ _ E) as [?|(Hle & _)]; [done|].
    apply lookup_lt_Some in E. simpl in Hle. lia. }
  destruct Hsound2 as (Hacc & _). unfold accounted in Hacc.
  rewrite Hrun2 in Hacc. destruct Hacc as [Hwg _].
  assert (count_where live (sessions q) = 0%nat) as Hz.
  { clear -Hret. induction Hret as [|s l Hs _ IH]; [done|].
    simpl. unfold live at 1. by rewrite Hs. }
  assert (step MainStep q =
          {| mainpc := MDone; sessions := sessions q; wg := wg q;
             stdout := stdout q; status := Exited 0 |}) as E2.
  { unfold step, main_step. rewrite Hrun2, Hm2, Hwg, Hz. reflexivity. }
  change (run [MainStep] q) with (step MainStep q). rewrite E2. done.
Qed.

Lemma PortForward_spares s : fate_spares s (PortForward s).
Proof. unfold fate_spares. goroutine_cases; auto; congruence. Qed.

Lemma handler_step_spares s : fate_spares s (handler_step s).
Proof. unfold fate_spares. goroutine_cases; auto; congruence. Qed.

Lemma ForwardPorts_returns_spares r s :
  fate_spares s (ForwardPorts_returns r s).
Proof. unfold fate_spares. goroutine_cases; auto; congruence. Qed.

Lemma on_session_uncrashed tid f p :
  (forall s, fate_spares s (f s)) ->
  uncrashed p -> uncrashed (on_session tid f p).
Proof.
  intros Hf Hp. unfold on_session.
  destruct (sessions p !! tid) as [s|] eqn:E; [|done].
  specialize (Hf s). destruct (f s) as [[s' out] fate].
  unfold fate_spares in Hf. simpl in Hf.
  unfold uncrashed, commit.
  destruct fate; simpl; try done.
  - intros Hrun. specialize (Hp Hrun). apply Forall_insert; [done|].
    apply Hf. exact (Forall_lookup_1 _ _ _ _ Hp E).
  - destruct (wg p); simpl; [done|].
    intros Hrun. specialize (Hp Hrun). apply Forall_insert; [done|].
    apply Hf. exact (Forall_lookup_1 _ _ _ _ Hp E).
Qed.

Lemma step_uncrashed e p : uncrashed p -> uncrashed (step e p).
Proof.
  intros Hp. unfold step. destruct (status p) eqn:Hrun; try done.
  destruct e.
  - unfold uncrashed in *. rewrite Hrun in Hp. specialize (Hp eq_refl).
    unfold main_step, main_moves, main_panics.
    repeat case_match; simpl; try done.
    intros _. apply Forall_app. split; [done|]. by constructor.
  - apply on_session_uncrashed; auto using PortForward_spares.
  - apply on_session_uncrashed; auto using handler_step_spares.
  - apply on_session_uncrashed; auto using ForwardPorts_returns_spares.
  - unfold uncrashed in *. rewrite Hrun in Hp. specialize (Hp eq_refl).
    unfold interrupt. destruct (existsb _ _); simpl; [|done].
    intros _. apply Forall_fmap. eapply Forall_impl; [exact Hp|].
    intros s Hs. unfold compose, relay. by destruct (notified s).
Qed.

Lemma run_uncrashed evs p : uncrashed p -> uncrashed (run evs p).
Proof.
  revert p. induction evs as [|e evs IH]; simpl; intros p Hp; [done|].
  by apply IH, step_uncrashed.
Qed.

Lemma existsb_agree {A} (f g : A -> bool) (l : list A) :
  Forall (fun x => f x = g x) l -> existsb f l = existsb g l.
Proof. induction 1 as [|x l Hx _ IH]; simpl; [done|]. by rewrite Hx, IH. Qed.

(** X9: what SIGINT does depends on where the sessions stand.  [signal.Notify]
    is called only once a pod was found and the deferred [signal.Stop] runs
    at the return, so a session receives the signal exactly between the two.
    While no session is in between (all still query their pods, found none,
    or have returned) the interrupt ends the process at once by the default
    action; otherwise the process runs on, and the interrupt by itself
    prints nothing and leaves the WaitGroup alone. *)
Theorem interrupt_needs_a_registered_session p0 evs :
  initial p0 ->
  status (run evs p0) = Running ->
  status (step Interrupt (run evs p0))
    = (if existsb registered (sessions (run evs p0))
       then Running else Killed) /\
  stdout (step Interrupt (run evs p0)) = stdout (run evs p0) /\
  wg (step Interrupt (run evs p0)) = wg (run evs p0) /\
  Forall (fun s => notified s = registered s) (sessions (run evs p0)).
Proof.
  intros H0 Hrun.
  assert (uncrashed (run evs p0)) as Hu.
  { apply run_uncrashed. intros _. destruct H0; simpl; constructor. }
  specialize (Hu Hrun).
  destruct (sound_reachable p0 evs H0) as (_ & _ & Hl).
  assert (Forall (fun s => notified s = registered s)
            (sessions (run evs p0))) as Hreg.
  { apply Forall_lookup_2. intros tid s E.
    pose proof (Forall_lookup_1 _ _ _ _ Hl E) as Hn.
    pose proof (Forall_lookup_1 _ _ _ _ Hu E) as Hc. simpl in Hc.
    unfold listening in Hn. unfold registered.
    by destruct (pc s). }
  unfold step, interrupt. rewrite Hrun, (existsb_agree _ _ _ Hreg).
  destruct (existsb registered _); simpl; done.
Qed.

Lemma step_continues tid p s s' out :
  status p = Running -> sessions p !! tid = Some s ->
  PortForward s = (s', out, Continue) ->
  step (Step tid) p =
    {| mainpc := mainpc p; sessions := <[tid:=s']> (sessions p);
       wg := wg p; stdout := stdout p ++ out; status := Running |}.
Proof.
  intros Hrun E H. rewrite (step_Step _ _ Hrun). unfold on_session.
  rewrite E, H. unfold commit. by rewrite Hrun.
Qed.

(** X10: the way to a tunnel.  A session that has not run yet, whose query
    returns at least one pod and whose transport and forwarder can be built,
    is blocked in [ForwardPorts] after three scheduling steps: it has
    printed the one [Forwarding] line naming the first pod, made its
    channels, registered for SIGINT and started its handler, and has given
    [portforward.New] the first pod's name, the tunnel's namespace, the one
    port pair [local:pod] and a logger tagged with the pod and the local
    port.  The WaitGroup is untouched. *)
Theorem session_reaches_forwarding p0 evs tid s pod rest :
  initial p0 ->
  status (run evs p0) = Running ->
  sessions (run evs p0) !! tid = Some s ->
  pc s = AtList ->
  ListPods env (clientSet s) (Namespace (tunnel s)) (Selector (tunnel s))
    = Ok (pod :: rest) ->
  RoundTripperFor env (cfg s) = None ->
  New env (cfg s) (Namespace (tunnel s)) (PodName pod)
    [fmt_d (LocalPort (tunnel s)) +:+ ":" +:+ fmt_d (PodPort (tunnel s))]
    {| Logger.Context := context s;
       Logger.Tag := PodName pod +:+ ":" +:+ fmt_d (LocalPort (tunnel s)) |}
    = None ->
  status (run (forwards tid) (run evs p0)) = Running /\
  wg (run (forwards tid) (run evs p0)) = wg (run evs p0) /\
  stdout (run (forwards tid) (run evs p0))
    = stdout (run evs p0) ++ [msg_forwarding s (PodName pod)] /\
  exists s',
    sessions (run (forwards tid) (run evs p0)) !! tid = Some s' /\
    pc s' = AtForwardPorts /\ podName s' = PodName pod /\
    stopChan s' = Open /\ notified s' = true /\ handler s' = Waiting /\
    acts s' =
      [AList (Namespace (tunnel s)) (Selector (tunnel s));
       APrintf (msg_forwarding s (PodName pod));
       AMakeChans; ANotify; AGo; ARoundTripperFor;
       ANew [fmt_d (LocalPort (tunnel s)) +:+ ":"
               +:+ fmt_d (PodPort (tunnel s))]
            {| Logger.Context := context s;
               Logger.Tag := PodName pod +:+ ":"
                               +:+ fmt_d (LocalPort (tunnel s)) |};
       AForwardPorts].
Proof.
  intros H0 Hrun E Hpc HL HR HN.
  pose proof (stops_once_reachable _ _ _ _ H0 E) as (H1 & _ & _).
  destruct (H1 Hpc) as [_ Ha].
  set (p := run evs p0) in *.
  set (s1 := start_forwarding s (PodName pod)).
  set (s2 := advance s1 AtNew [ARoundTripperFor]).
  set (s3 := advance s2 AtForwardPorts
               [ANew (ports_of s2) (logger_of s2); AForwardPorts]).
  assert (PortForward s = (s1, [msg_forwarding s (PodName pod)], Continue))
    as P1.
  { unfold PortForward. rewrite Hpc, HL.
    assert ((Z.of_nat (length (pod :: rest)) <? 1) = false) as ->
      by (apply Z.ltb_ge; simpl length; lia).
    reflexivity. }
  assert (PortForward s1 = (s2, [], Continue)) as P2.
  { unfold PortForward. cbn [pc s1 start_forwarding cfg]. by rewrite HR. }
  assert (PortForward s2 = (s3, [], Continue)) as P3.
  { unfold PortForward.
    cbn [pc s2 s1 advance start_forwarding cfg tunnel podName].
    unfold ports_of at 1, logger_of at 1.
    cbn [s2 s1 advance start_forwarding cfg tunnel podName context].
    by rewrite HN. }
  pose proof (lookup_lt_Some _ _ _ E) as Hlt.
  change (run (forwards tid) p)
    with (step (Step tid) (step (Step tid) (step (Step tid) p))).
  rewrite (step_continues tid p s s1 _ Hrun E P1).
  match goal with |- context [step (Step tid) (step (Step tid) ?q)] =>
    rewrite (step_continues tid q s1 s2 [] eq_refl
               ltac:(by apply list_lookup_insert_eq) P2)
  end.
  match goal with |- context [step (Step tid) ?q] =>
    rewrite (step_continues tid q s2 s3 [] eq_refl
               ltac:(by (cbn [sessions]; apply list_lookup_insert_eq;
                         rewrite length_insert))
               P3)
  end.
  cbn [status wg stdout sessions mainpc].
  split; [done|]. split; [done|].
  split; [by rewrite !app_nil_r|].
  exists s3. split.
  - apply list_lookup_insert_eq. by rewrite !length_insert.
  - unfold s3, s2, s1. simpl. rewrite Ha. done.
Qed.

(** ** The stop of a session *)





End Model.

(** ** The logging sink *)

(** C10: whatever bytes it is given, [Logger.Write] appends the formatted
    message to standard output and returns [(0, nil)]: no error, and a count
    of zero whatever the length of the input. *)
Theorem Write_returns_zero_nil (this : Logger.t) (b : list Byte.byte)
    (out : Stdout) :
  (Logger.Write this b out).1 = (0, None) /\
  (Logger.Write this b out).2 =
    out ++ ["[" +:+ Logger.Context this +:+ "] Logger: " +:+ Logger.Tag this
                +:+ ", " +:+ string_of_bytes b] /\
  ((Logger.Write this b out).1.1 = Z.of_nat (length b) -> b = []).
Proof.
  unfold Logger.Write. simpl. repeat split.
  intros H. destruct b; [done|]. simpl in H. lia.
Qed.

(** ** The theorems on concrete runs *)

(** The scenario of the specification, first half: no pod for [app=x]. *)
Example scenario_no_pods :
  stdout (run world_no_pods (starts_one ++ [Step 0] ++ main_returns) main_toml)
    = ["{[{c1 [{ns app=x 9090 8000}]}]}" +:+ nl;
       "[c1] Setting up 1 tunnels." +:+ nl;
       "[c1] No pods found: app=x." +:+ nl] /\
  exit_code
    (status (run world_no_pods (starts_one ++ [Step 0] ++ main_returns)
               main_toml)) = Some 0.
Proof. vm_compute. split; reflexivity. Qed.

(** A session of the literal of main.go is stopped by an interrupt, and the
    process ends with exit code 0; a second interrupt stays in the buffer. *)
Example scenario_interrupt :
  stdout (run world_minikube
            ([MainStep; MainStep] ++ forwards 0 ++
             [Interrupt; Handler 0; Interrupt; Handler 0; Step 0] ++
             main_returns) main_go)
    = ["[minikube] Setting up 1 tunnels." +:+ nl;
       "[minikube] Forwarding localhost:8000 to pod dashboard-7d4:9090" +:+ nl;
       "[minikube] Stopped forwarding dashboard-7d4:9090." +:+ nl] /\
  status (run world_minikube
            ([MainStep; MainStep] ++ forwards 0 ++
             [Interrupt; Handler 0; Interrupt; Handler 0; Step 0] ++
             main_returns) main_go) = Exited 0.
Proof. vm_compute. split; reflexivity. Qed.

(** C1 fails as stated: session 0 forwards, the pod query of session 1
    fails, and the process is gone; session 0 never returns. *)
Lemma query_failure_ends_the_process :
  status (run world_query_fails (starts_two ++ forwards 0) main_toml)
    = Running /\
  pc <$> sessions (run world_query_fails (starts_two ++ forwards 0) main_toml)
    = [AtForwardPorts; AtList] /\
  status (run world_query_fails (starts_two ++ forwards 0 ++ [Step 1])
            main_toml) = Panicked "connection refused" /\
  pc <$> sessions
           (run world_query_fails
              (starts_two ++ forwards 0 ++ [Step 1] ++
               [Step 0; Interrupt; Handler 0; Step 0; MainStep]) main_toml)
    = [AtForwardPorts; Crashed].
Proof. vm_compute. repeat split; reflexivity. Qed.

Lemma session_failure_panics_witness :
  status (step world_query_fails (Step 1)
            (run world_query_fails (starts_two ++ forwards 0) main_toml))
    = Panicked "connection refused" /\
  exit_code
    (status (step world_query_fails (Step 1)
               (run world_query_fails (starts_two ++ forwards 0) main_toml)))
    = Some 2.
Proof.
  destruct (session_failure_panics world_query_fails
              (run world_query_fails (starts_two ++ forwards 0) main_toml)
              1
              (spawn "c1" {| Namespace := "ns"; Selector := "app=z";
                             PodPort := 80; LocalPort := 8002 |} "c1" "c1")
              (Step 1) "connection refused")
    as (H1 & H2 & _).
  - vm_compute. reflexivity.
  - vm_compute. reflexivity.
  - apply failure_list; vm_compute; reflexivity.
  - split; [exact H1|exact H2].
Defined.

(** C2 fails as stated: session 0 forwards in context [c1], the transport of
    session 1 cannot be built, and the process exits with code 1. *)
Lemma upgrade_failure_ends_the_process :
  status (run world_upgrade_fails
            (starts_two_contexts ++ forwards 0 ++ [Step 1]) main_toml)
    = Running /\
  pc <$> sessions (run world_upgrade_fails
                     (starts_two_contexts ++ forwards 0 ++ [Step 1]) main_toml)
    = [AtForwardPorts; AtRoundTripperFor] /\
  status (run world_upgrade_fails
            (starts_two_contexts ++ forwards 0 ++ [Step 1; Step 1]) main_toml)
    = Exited 1 /\
  pc <$> sessions
           (run world_upgrade_fails
              (starts_two_contexts ++ forwards 0 ++ [Step 1; Step 1] ++
               [Step 0; Interrupt; Handler 0; Step 0; MainStep]) main_toml)
    = [AtForwardPorts; Crashed].
Proof. vm_compute. repeat split; reflexivity. Qed.

Lemma upgrade_error_exits_process_witness :
  status (step world_upgrade_fails (Step 1)
            (run world_upgrade_fails
               (starts_two_contexts ++ forwards 0 ++ [Step 1]) main_toml))
    = Exited 1.
Proof.
  eapply proj1.
  eapply (upgrade_error_exits_process world_upgrade_fails
            (run world_upgrade_fails
               (starts_two_contexts ++ forwards 0 ++ [Step 1]) main_toml) 1).
  - vm_compute. reflexivity.
  - vm_compute. reflexivity.
  - vm_compute. reflexivity.
  - vm_compute. reflexivity.
Defined.

(** C3 fails as stated: the first context cannot be resolved, [main]
    panics, and the tunnel of the second context is never started. *)
Lemma auth_failure_ends_the_process :
  status (run world_auth_fails [MainStep; MainStep] main_toml)
    = Panicked "context stale does not exist" /\
  sessions (run world_auth_fails
              ([MainStep; MainStep] ++ starts_two_contexts ++ [Step 0])
              main_toml) = [] /\
  pending (RestConfig := string) (ClientSet := string) world_auth_fails
    (mainpc (run world_auth_fails
               ([MainStep; MainStep] ++ starts_two_contexts) main_toml))
    = [("stale", tunnel_x); ("c1", tunnel_x)].
Proof. vm_compute. repeat split; reflexivity. Qed.

Lemma auth_error_panics_witness :
  status (step world_auth_fails MainStep
            (run world_auth_fails [MainStep] main_toml))
    = Panicked "context stale does not exist" /\
  exit_code (status (step world_auth_fails MainStep
                       (run world_auth_fails [MainStep] main_toml)))
    <> Some 0.
Proof.
  destruct (auth_error_panics world_auth_fails
              (run world_auth_fails [MainStep] main_toml)
              {| Name := "stale"; Tunnels := [tunnel_x] |}
              [ {| Name := "c1"; Tunnels := [tunnel_x] |} ]
              "context stale does not exist")
    as (H1 & _ & H3 & _).
  - vm_compute. reflexivity.
  - vm_compute. reflexivity.
  - left. vm_compute. reflexivity.
  - split; [exact H1|exact H3].
Defined.

(** C4 fails as stated: the file cannot be read, [main] prints the error and
    the empty configuration, goes through its loops and returns: the process
    is not aborted, it ends with exit code 0. *)
Lemma missing_file_does_not_abort :
  status (run world_no_file [MainStep] main_toml) = Running /\
  stdout (run world_no_file [MainStep] main_toml)
    = ["open kube-tunnel-proxy.toml: no such file or directory" +:+ nl;
       "{[]}" +:+ nl] /\
  mainpc (run world_no_file [MainStep] main_toml) = MContexts [] /\
  status (run world_no_file [MainStep; MainStep; MainStep] main_toml)
    = Exited 0.
Proof. vm_compute. repeat split; reflexivity. Qed.

Lemma config_error_is_only_printed_witness :
  status (step world_no_file MainStep main_toml) = Running /\
  mainpc (step world_no_file MainStep main_toml) = MContexts [].
Proof.
  destruct (config_error_is_only_printed world_no_file) as (H1 & H2 & _).
  - left. vm_compute. discriminate.
  - split; [exact H1|exact H2].
Defined.

Lemma no_pods_ends_session_only_witness :
  exists s,
    sessions (run world_no_pods (starts_one ++ [Step 0]) main_toml) !! 0%nat
      = Some s /\
    pc s = Returned /\
    acts s = [AList "ns" "app=x";
              APrintf ("[c1] No pods found: app=x." +:+ nl); AWgDone] /\
    count_where opens_channel (acts s) = 0%nat /\
    count_where is_printf (acts s) = 1%nat.
Proof.
  eexists. split; [vm_compute; reflexivity|].
  edestruct (no_pods_ends_session_only world_no_pods main_toml
               (starts_one ++ [Step 0]) 0)
    as ([[Hp _]|[Hp Ha]] & Hc & _ & Hl & _).
  - exact initial_main_toml.
  - vm_compute. reflexivity.
  - vm_compute. reflexivity.
  - discriminate Hp.
  - split; [exact Hp|]. split; [exact Ha|]. split; [exact Hc|exact Hl].
Defined.






Lemma first_pod_is_picked_witness :
  exists s,
    sessions (run world_minikube ([MainStep; MainStep] ++ forwards 0) main_go)
      !! 0%nat = Some s /\
    podName s = "dashboard-7d4".
Proof.
  eexists. split; [vm_compute; reflexivity|].
  edestruct (first_pod_is_picked world_minikube main_go
               ([MainStep; MainStep] ++ forwards 0) 0)
    as (H & _).
  - exact initial_main_go.
  - vm_compute. reflexivity.
  - vm_compute. reflexivity.
  - simpl. lia.
  - exact (f_equal (default "") (H ltac:(discriminate))).
Defined.

Lemma waitgroup_counts_live_sessions_witness :
  wg (run world_two_tunnels
        (starts_two ++ forwards 0 ++ [Step 1] ++ main_returns) main_toml)
    = 2%nat /\
  step world_two_tunnels MainStep
    (run world_two_tunnels
       (starts_two ++ forwards 0 ++ [Step 1] ++ main_returns) main_toml)
    = run world_two_tunnels
        (starts_two ++ forwards 0 ++ [Step 1] ++ main_returns) main_toml.
Proof.
  edestruct (waitgroup_counts_live_sessions world_two_tunnels main_toml
               (starts_two ++ forwards 0 ++ [Step 1] ++ main_returns))
    as (H1 & H2).
  - exact initial_main_toml.
  - vm_compute. reflexivity.
  - split; [exact H1|].
    eapply (H2 0%nat); [vm_compute; reflexivity|vm_compute; reflexivity|].
    vm_compute. discriminate.
Defined.

Lemma panic_comes_from_a_collaborator_witness :
  collaborator_error world_query_fails "connection refused" \/
  exists tid,
    ChannelEnds tid (Some "connection refused")
      ∈ starts_two ++ forwards 0 ++ [Step 1].
Proof.
  apply (panic_comes_from_a_collaborator world_query_fails main_toml).
  - exact initial_main_toml.
  - vm_compute. reflexivity.
Defined.

Lemma exit_code_origin_witness :
  exists tid s e,
    sessions (run world_upgrade_fails
                (starts_two_contexts ++ forwards 0 ++ [Step 1; Step 1])
                main_toml) !! tid = Some s /\
    pc s = Crashed /\
    RoundTripperFor world_upgrade_fails (cfg s) = Some e /\
    msg_error e ∈ stdout (run world_upgrade_fails
                            (starts_two_contexts ++ forwards 0
                               ++ [Step 1; Step 1])
                            main_toml).
Proof.
  edestruct (exit_code_origin world_upgrade_fails main_toml
               (starts_two_contexts ++ forwards 0 ++ [Step 1; Step 1]) 1)
    as [(H & _)|[(_ & _ & H)|(H & _)]].
  - exact initial_main_toml.
  - vm_compute. reflexivity.
  - discriminate H.
  - exact H.
  - discriminate H.
Defined.

Lemma session_uses_its_context_configuration_witness :
  exists s,
    sessions (run world_upgrade_fails
                (starts_two_contexts ++ forwards 0) main_toml) !! 1%nat
      = Some s /\
    context s = "plain" /\
    configured world_upgrade_fails s.
Proof.
  eexists. split; [vm_compute; reflexivity|]. split; [reflexivity|].
  eapply proj1.
  eapply (session_uses_its_context_configuration world_upgrade_fails
            main_toml (starts_two_contexts ++ forwards 0) 1).
  - exact initial_main_toml.
  - vm_compute. reflexivity.
Defined.

Lemma main_starts_every_tunnel_witness :
  mainpc (run world_minikube
            (replicate (main_steps config_literal) MainStep) main_go)
    = MWait /\
  stdout (run world_minikube
            (replicate (main_steps config_literal) MainStep) main_go)
    = ["[minikube] Setting up 1 tunnels." +:+ nl].
Proof.
  edestruct (main_starts_every_tunnel world_minikube config_literal main_go)
    as (_ & H1 & _ & H2).
  - reflexivity.
  - reflexivity.
  - repeat constructor. exists "minikube", "minikube". split; reflexivity.
  - split; [exact H1|exact H2].
Defined.

Lemma interrupt_stops_forwarding_witness :
  status (run world_minikube [Interrupt; Handler 0; Step 0]
            (run world_minikube ([MainStep; MainStep] ++ forwards 0) main_go))
    = Running /\
  stdout (run world_minikube [Interrupt; Handler 0; Step 0]
            (run world_minikube ([MainStep; MainStep] ++ forwards 0) main_go))
    = ["[minikube] Setting up 1 tunnels." +:+ nl;
       "[minikube] Forwarding localhost:8000 to pod dashboard-7d4:9090"
         +:+ nl;
       "[minikube] Stopped forwarding dashboard-7d4:9090." +:+ nl].
Proof.
  edestruct (interrupt_stops_forwarding world_minikube main_go
               ([MainStep; MainStep] ++ forwards 0) 0)
    as (H1 & _ & H2 & _).
  - exact initial_main_go.
  - vm_compute. reflexivity.
  - vm_compute. reflexivity.
  - reflexivity.
  - reflexivity.
  - split; [exact H1|exact H2].
Defined.

Lemma lost_connection_leaves_handler_waiting_witness :
  exists s',
    sessions (step world_minikube (ChannelEnds 0 None)
                (run world_minikube ([MainStep; MainStep] ++ forwards 0)
                   main_go)) !! 0%nat = Some s' /\
    pc s' = Returned /\ handler s' = Waiting /\
    sessions (run world_minikube [Interrupt; Handler 0; Step 0; MainStep]
                (step world_minikube (ChannelEnds 0 None)
                   (run world_minikube ([MainStep; MainStep] ++ forwards 0)
                      main_go))) !! 0%nat = Some s'.
Proof.
  edestruct (lost_connection_leaves_handler_waiting world_minikube main_go
               ([MainStep; MainStep] ++ forwards 0) 0)
    as (_ & _ & _ & s' & H1 & H2 & H3 & _ & _ & H4).
  - exact initial_main_go.
  - vm_compute. reflexivity.
  - vm_compute. reflexivity.
  - reflexivity.
  - reflexivity.
  - reflexivity.
  - exists s'. split; [exact H1|]. split; [exact H2|]. split; [exact H3|].
    exact (H4 [Interrupt; Handler 0; Step 0; MainStep]).
Defined.

Lemma interrupt_shuts_down_cleanly_witness :
  status (run world_two_tunnels (shutdown 2)
            (run world_two_tunnels
               (starts_two ++ [MainStep; MainStep] ++ forwards 0 ++ forwards 1)
               main_toml))
    = Exited 0.
Proof.
  edestruct (interrupt_shuts_down_cleanly world_two_tunnels main_toml
               (starts_two ++ [MainStep; MainStep] ++ forwards 0
                  ++ forwards 1))
    as (H1 & _).
  - exact initial_main_toml.
  - vm_compute. reflexivity.
  - vm_compute. reflexivity.
  - intros [|[|tid]] s E; vm_compute in E; [| |discriminate];
      injection E as <-; right; split; reflexivity.
  - eexists 0%nat, _. split; [vm_compute; reflexivity|reflexivity].
  - exact H1.
Defined.

Lemma interrupt_needs_a_registered_session_witness :
  status (step world_two_tunnels Interrupt
            (run world_two_tunnels starts_two main_toml)) = Killed /\
  status (step world_two_tunnels Interrupt
            (run world_two_tunnels (starts_two ++ [Step 1]) main_toml))
    = Running.
Proof.
  split.
  - exact (proj1 (interrupt_needs_a_registered_session world_two_tunnels
                    main_toml starts_two initial_main_toml eq_refl)).
  - exact (proj1 (interrupt_needs_a_registered_session world_two_tunnels
                    main_toml (starts_two ++ [Step 1]) initial_main_toml
                    eq_refl)).
Defined.

Lemma session_reaches_forwarding_witness :
  stdout (run world_minikube (forwards 0)
            (run world_minikube [MainStep; MainStep] main_go))
    = ["[minikube] Setting up 1 tunnels." +:+ nl;
       "[minikube] Forwarding localhost:8000 to pod dashboard-7d4:9090"
         +:+ nl].
Proof.
  edestruct (session_reaches_forwarding world_minikube main_go
               [MainStep; MainStep] 0)
    as (_ & _ & H & _).
  - exact initial_main_go.
  - vm_compute. reflexivity.
  - vm_compute. reflexivity.
  - reflexivity.
  - vm_compute. reflexivity.
  - reflexivity.
  - reflexivity.
  - exact H.
Defined.
